(** * Digitalizacion_Planos: the contour pipeline and the lot area

    A shallow embedding of
      - [BackEnd/Planos/Services/extractor.py]: line simplification
        (Ramer-Douglas-Peucker), point unification, endpoint merging,
        sublot validation, the area filter and the decoding step of
        [procesar_imagen];
      - [BackEnd/Lotes/serializers.py]: [LoteSerializer.get_area_calculada]
        and the names given by [LoteSerializer.create];
      - [BackEnd/Planos/views.py]: the view [ProcesarPlanoAPIView].

    Conventions.
      - A point is a pair of integers.  Python [int] arithmetic is exact and
        is written in [Z]; arithmetic on NumPy integer arrays is 64-bit and
        its wrap-around is written out ([wrap64]).
      - A Python [float] / NumPy [float64] is a binary64 number: Rocq's
        primitive [float], whose operations round to nearest, ties to even.
        [float_of_int] is the conversion of an integer to the nearest double;
        it saturates to infinity beyond the binary64 range, where CPython
        raises [OverflowError] (no pixel coordinate comes near that range).
      - A two-element dot product is accumulated left to right, one rounding
        per operation.
      - Exceptions are values of [exn]; a function that can raise returns a
        [result].  Diagnostic [print] calls have no effect on results and are
        left out. *)

From stdpp Require Import base option list gmap strings.
From Stdlib Require Import ZArith Lia Floats.
From Stdlib Require Ascii DecimalString DecimalN DecimalPos.

Set Default Proof Using "Type".
Local Open Scope Z_scope.

(** ** Exceptions and results *)

Inductive exn : Type :=
  | ZeroDivisionError
  | ValueError
  | OverflowError
  | IndexError
  | KeyError
  | RecursionError
  | LibraryError (name : string).

Inductive result (A : Type) : Type :=
  | Ok (a : A)
  | Raise (e : exn).

Arguments Ok {A} a.
Arguments Raise {A} e.

#[global] Instance result_ret : MRet result := fun A a => Ok a.

#[global] Instance result_bind : MBind result := fun A B f m =>
  match m with
  | Ok a => f a
  | Raise e => Raise e
  end.

#[global] Instance result_fmap : FMap result := fun A B f m =>
  match m with
  | Ok a => Ok (f a)
  | Raise e => Raise e
  end.

(** A point [[x, y]]. *)
Definition point : Type := Z * Z.

(** ** Numbers *)

Module Num.

(** [float(n)] for an integer [n]. *)
Definition float_of_int (n : Z) : float :=
  SF2Prim (binary_normalize prec emax n 0 false).

(** Two's-complement wrap-around of NumPy's [int64] arithmetic. *)
Definition wrap64 (z : Z) : Z := (z + 2 ^ 63) mod 2 ^ 64 - 2 ^ 63.

(** [math.sqrt(n)] for a Python integer [n]. *)
Definition sqrt_int (n : Z) : float := sqrt (float_of_int n).

(** [math.sqrt((x1 - x2)**2 + (y1 - y2)**2)] on integer coordinates: the
    argument of the square root is an exact integer. *)
Definition euclid (p q : point) : float :=
  sqrt_int ((p.1 - q.1) ^ 2 + (p.2 - q.2) ^ 2).

(** The integer value [m * 2^e] rounded towards minus infinity. *)
Definition floor_scaled (m e : Z) : Z :=
  if 0 <=? e then m * 2 ^ e else m / 2 ^ (- e).

(** [math.floor] on doubles, as a double ([floor] of C). *)
Definition c_floor (f : float) : float :=
  match Prim2SF f with
  | S754_finite s m e =>
      let n := floor_scaled (if s then Z.neg m else Z.pos m) e in
      if n =? 0 then (if s then neg_zero else zero) else float_of_int n
  | _ => f
  end.

(** [fmod] of C: the remainder of the truncated quotient, which is exact. *)
Definition c_fmod (v w : float) : float :=
  match Prim2SF v, Prim2SF w with
  | S754_nan, _ | _, S754_nan => nan
  | S754_infinity _, _ => nan
  | _, S754_zero _ => nan
  | _, S754_infinity _ => v
  | S754_zero _, _ => v
  | S754_finite sv mv ev, S754_finite _ mw ew =>
      let e0 := Z.min ev ew in
      let a := Z.pos mv * 2 ^ (ev - e0) in
      let b := Z.pos mw * 2 ^ (ew - e0) in
      let r := a mod b in
      if r =? 0 then (if sv then neg_zero else zero)
      else SF2Prim (binary_normalize prec emax (if sv then - r else r) e0 false)
  end.

Definition nonzero (f : float) : bool := negb (f =? 0)%float.

(** The quotient computed by CPython's [_float_div_mod] (floatobject.c). *)
Definition floor_quotient (vx wx : float) : float :=
  let mod_ := c_fmod vx wx in
  let div0 := ((vx - mod_) / wx)%float in
  let div :=
    if nonzero mod_ && negb (Bool.eqb (wx <? 0)%float (mod_ <? 0)%float)
    then (div0 - 1)%float else div0 in
  if nonzero div then
    let floordiv := c_floor div in
    if (0.5 <? div - floordiv)%float then (floordiv + 1)%float else floordiv
  else
    (* [copysign(0.0, vx / wx)] *)
    if get_sign (vx / wx)%float then neg_zero else zero.

(** [x // g] for a Python integer [x] and a float [g]. *)
Definition int_floordiv_float (x : Z) (g : float) : result float :=
  if (g =? 0)%float then Raise ZeroDivisionError
  else Ok (floor_quotient (float_of_int x) g).

(** [int(f)]: truncation towards zero. *)
Definition int_of_float (f : float) : result Z :=
  match Prim2SF f with
  | S754_nan => Raise ValueError
  | S754_infinity _ => Raise OverflowError
  | S754_zero _ => Ok 0
  | S754_finite s m e =>
      let n := floor_scaled (Z.pos m) e in Ok (if s then - n else n)
  end.

(** [round(f)] with one argument: the nearest integer, ties to even. *)
Definition round_float (f : float) : result Z :=
  match Prim2SF f with
  | S754_nan => Raise ValueError
  | S754_infinity _ => Raise OverflowError
  | S754_zero _ => Ok 0
  | S754_finite s m e =>
      let n :=
        if 0 <=? e then Z.pos m * 2 ^ e
        else
          let d := 2 ^ (- e) in
          let q := Z.pos m / d in
          let r2 := 2 * (Z.pos m mod d) in
          if r2 <? d then q
          else if d <? r2 then q + 1
          else if Z.even q then q else q + 1 in
      Ok (if s then - n else n)
  end.

End Num.

(** ** The order of the doubles *)

Module FloatOrder.

Lemma SFltb_trans (a b c : spec_float) :
  SFltb a b = true → SFltb b c = true → SFltb a c = true.
Proof.
  unfold SFltb, SFcompare.
  destruct a as [[]|[]| |[] ma ea], b as [[]|[]| |[] mb eb],
    c as [[]|[]| |[] mc ec]; try done;
    destruct (Z.compare_spec ea eb), (Z.compare_spec eb ec),
      (Z.compare_spec ea ec); try done; try lia; subst;
    rewrite ?Pos.compare_cont_spec; cbn [Pos.switch_Eq];
    destruct (Pos.compare_spec ma mb), (Pos.compare_spec mb mc),
      (Pos.compare_spec ma mc); try done; lia.
Qed.

Lemma SFltb_between (a x b : spec_float) :
  x ≠ S754_nan →
  SFltb a x = false → SFltb x b = false → SFltb a b = false.
Proof.
  unfold SFltb, SFcompare. intros Hx.
  destruct a as [[]|[]| |[] ma ea], x as [[]|[]| |[] mx ex],
    b as [[]|[]| |[] mb eb]; try done;
    destruct (Z.compare_spec ea ex), (Z.compare_spec ex eb),
      (Z.compare_spec ea eb); try done; try lia; subst;
    rewrite ?Pos.compare_cont_spec; cbn [Pos.switch_Eq];
    destruct (Pos.compare_spec ma mx), (Pos.compare_spec mx mb),
      (Pos.compare_spec ma mb); try done; lia.
Qed.

Lemma SFltb_not_nan (a x : spec_float) : SFltb a x = true → x ≠ S754_nan.
Proof. intros H ->. by destruct a as [[]|[]| |[] ma ea]. Qed.

(** [a < b] and [b < c] give [a < c]. *)
Lemma ltb_trans (a b c : float) :
  (a <? b)%float = true → (b <? c)%float = true → (a <? c)%float = true.
Proof. rewrite !ltb_spec. apply SFltb_trans. Qed.

(** A double is a number when it is not a NaN. *)
Definition number (x : float) : Prop := Prim2SF x ≠ S754_nan.

Lemma ltb_number (a x : float) : (a <? x)%float = true → number x.
Proof. rewrite ltb_spec. apply SFltb_not_nan. Qed.

(** When [a] is not below the number [x] and [x] is not below [b], [a] is not
    below [b]. *)
Lemma ltb_between (a x b : float) :
  number x →
  (a <? x)%float = false → (x <? b)%float = false → (a <? b)%float = false.
Proof. rewrite !ltb_spec. apply SFltb_between. Qed.

Lemma ltb_irrefl (x : float) : (x <? x)%float = false.
Proof.
  rewrite ltb_spec. unfold SFltb, SFcompare.
  destruct (Prim2SF x) as [[]|[]| |[] m e]; try done;
    rewrite Z.compare_refl, Pos.compare_cont_refl; done.
Qed.

Lemma SFltb_leb_trans (a b c : spec_float) :
  SFltb a b = true → SFleb b c = true → SFltb a c = true.
Proof.
  unfold SFltb, SFleb, SFcompare.
  destruct a as [[]|[]| |[] ma ea], b as [[]|[]| |[] mb eb],
    c as [[]|[]| |[] mc ec]; try done;
    destruct (Z.compare_spec ea eb), (Z.compare_spec eb ec),
      (Z.compare_spec ea ec); try done; try lia; subst;
    rewrite ?Pos.compare_cont_spec; cbn [Pos.switch_Eq];
    destruct (Pos.compare_spec ma mb), (Pos.compare_spec mb mc),
      (Pos.compare_spec ma mc); try done; lia.
Qed.

(** [a < b] and [b <= c] give [a < c]. *)
Lemma ltb_leb_trans (a b c : float) :
  (a <? b)%float = true → (b <=? c)%float = true → (a <? c)%float = true.
Proof. rewrite !ltb_spec, leb_spec. apply SFltb_leb_trans. Qed.

End FloatOrder.

(** ** Simplifier: [ramer_douglas_peucker] and [simplify_contours] *)

Module Simplifier.
Import Num.

(** A NumPy integer vector converted to [float64]. *)
Definition as_float (v : point) : float * float :=
  (float_of_int v.1, float_of_int v.2).

(** [a - b] on [int64] arrays. *)
Definition int_sub (a b : point) : point :=
  (wrap64 (a.1 - b.1), wrap64 (a.2 - b.2)).

(** [np.dot] on two float vectors of length two. *)
Definition dot (u v : float * float) : float := (u.1 * v.1 + u.2 * v.2)%float.

(** [np.linalg.norm]: the square root of the vector's dot product with
    itself. *)
Definition norm (v : float * float) : float := sqrt (dot v v).

Definition distance_point_to_line (p line_start line_end : point) : float :=
  if decide (line_start = line_end) then norm (as_float (int_sub p line_start))
  else
    let line_vec := int_sub line_end line_start in
    let point_vec := int_sub p line_start in
    let line_length := norm (as_float line_vec) in
    let line_unit_vec :=
      ((as_float line_vec).1 / line_length,
       (as_float line_vec).2 / line_length)%float in
    let projection_length := dot (as_float point_vec) line_unit_vec in
    if (projection_length <? 0)%float then
      norm (as_float (int_sub p line_start))
    else if (line_length <? projection_length)%float then
      norm (as_float (int_sub p line_end))
    else
      let projection :=
        ((as_float line_start).1 + projection_length * line_unit_vec.1,
         (as_float line_start).2 + projection_length * line_unit_vec.2)%float in
      norm ((as_float p).1 - projection.1, (as_float p).2 - projection.2)%float.

(** The loop [for i in range(1, end)] that looks for the farthest point:
    [pts] are the points still to visit, [i] the index of the first of them,
    [(index, dmax)] the loop's two variables. *)
Fixpoint farthest_point (pts : list point) (p0 pend : point)
    (i index : nat) (dmax : float) : nat * float :=
  match pts with
  | [] => (index, dmax)
  | p :: rest =>
      let d := distance_point_to_line p p0 pend in
      if (dmax <? d)%float then farthest_point rest p0 pend (S i) i d
      else farthest_point rest p0 pend (S i) index dmax
  end.

(** The points visited by the loop: [points[1:end]]. *)
Definition interior (points : list point) : list point :=
  take (length points - 2) (drop 1 points).

(** [ramer_douglas_peucker] under a recursion limit: [fuel] bounds the depth
    of the calls that the interpreter still allows below the present one.  A
    call on more than two points makes such calls (to
    [distance_point_to_line] and to itself), and its recursive calls run
    with one level less.  Running out of [fuel] is CPython's
    [RecursionError]; the code never raises the interpreter's limit. *)
Fixpoint rdp (fuel : nat) (points : list point) (epsilon : float)
    : result (list point) :=
  if bool_decide (length points ≤ 2)%nat then Ok points
  else
    match fuel with
    | O => Raise RecursionError
    | S fuel =>
        let end_ := (length points - 1)%nat in
        let p0 := points !!! 0%nat in
        let pend := points !!! end_ in
        let '(index, dmax) :=
          farthest_point (interior points) p0 pend 1 0 0%float in
        if (epsilon <? dmax)%float then
          results1 ← rdp fuel (take (index + 1) points) epsilon;
          results2 ← rdp fuel (drop index points) epsilon;
          Ok (removelast results1 ++ results2)
        else Ok [p0; pend]
    end.

(** The function with room for [length points] nested calls.  A recursion
    that ends at all ends within that depth (each recursive call is on a
    strictly shorter slice, or on the same points again, which never ends),
    so this is what the code returns whenever it returns, and
    [RecursionError] where the recursion never ends.  Where the recursion
    ends but is deeper than the interpreter allows, the code raises
    [RecursionError] and this definition does not: that the code returns is
    stated on [rdp], with the depth as a hypothesis. *)
Definition ramer_douglas_peucker (points : list point) (epsilon : float)
    : result (list point) :=
  rdp (length points) points epsilon.

(** The conversion [[int(x), int(y)]] of a simplified contour leaves integer
    points as they are. *)
Fixpoint simplify_contours (contours : list (list point)) (epsilon : float)
    : result (list (list point)) :=
  match contours with
  | [] => Ok []
  | contour :: rest =>
      if bool_decide (2 ≤ length contour)%nat then
        simplified_contour ← ramer_douglas_peucker contour epsilon;
        simplified ← simplify_contours rest epsilon;
        Ok (if bool_decide (2 ≤ length simplified_contour)%nat
            then simplified_contour :: simplified else simplified)
      else simplify_contours rest epsilon
  end.

End Simplifier.

(** *** Properties of the simplifier *)

Module SimplifierFacts.
Import Num Simplifier.

(** What the search loop returns: its starting values, or the index of one of
    the visited points together with that point's distance. *)
Lemma farthest_point_cases pts p0 pend i index dmax :
  farthest_point pts p0 pend i index dmax = (index, dmax)
  ∨ ∃ k p, pts !! k = Some p
           ∧ farthest_point pts p0 pend i index dmax
             = ((i + k)%nat, distance_point_to_line p p0 pend).
Proof.
  revert i index dmax.
  induction pts as [|q rest IH]; intros i index dmax; simpl; [by left|].
  destruct (dmax <? _)%float.
  - destruct (IH (S i) i (distance_point_to_line q p0 pend))
      as [->|(k & p & Hk & ->)].
    + right. exists 0%nat, q. split; [done|]. by rewrite Nat.add_0_r.
    + right. exists (S k), p. split; [done|]. f_equal. lia.
  - destruct (IH (S i) index dmax) as [->|(k & p & Hk & ->)]; [by left|].
    right. exists (S k), p. split; [done|]. f_equal. lia.
Qed.

Lemma interior_length (points : list point) :
  length (interior points) = (length points - 2)%nat.
Proof. unfold interior. rewrite length_take, length_drop. lia. Qed.

Lemma lookup_total_first (l : list point) : (0 < length l)%nat → Some (l !!! 0%nat) = head l.
Proof.
  destruct l; simpl; [lia|done].
Qed.

Lemma lookup_total_last (l : list point) :
  (0 < length l)%nat → Some (l !!! (length l - 1)%nat) = last l.
Proof.
  intros Hl. rewrite last_lookup.
  replace (Init.Nat.pred (length l)) with (length l - 1)%nat by lia.
  destruct (lookup_lt_is_Some_2 l (length l - 1)) as [x Hx]; [lia|].
  by rewrite (list_lookup_total_correct _ _ _ Hx).
Qed.

Lemma head_removelast_app (r1 r2 : list point) :
  (2 ≤ length r1)%nat → head (removelast r1 ++ r2) = head r1.
Proof. destruct r1 as [|a [|b r]]; simpl; intros; (lia || done). Qed.

Lemma last_app_nonempty (r1 r2 : list point) :
  (1 ≤ length r2)%nat → last (r1 ++ r2) = last r2.
Proof.
  intros H. rewrite last_app. destruct (last r2) eqn:E; [done|].
  apply last_None in E. subst. simpl in H. lia.
Qed.

Lemma length_removelast (r : list point) : length (removelast r) = (length r - 1)%nat.
Proof. rewrite removelast_firstn_len, length_take. lia. Qed.

Lemma head_take (l : list point) n : (0 < n)%nat → head (take n l) = head l.
Proof. destruct n, l; simpl; intros; (lia || done). Qed.

Lemma last_drop (l : list point) n : (n < length l)%nat → last (drop n l) = last l.
Proof.
  intros H. rewrite !last_lookup, lookup_drop, length_drop. f_equal. lia.
Qed.

Lemma last_take_S (l : list point) n : (n < length l)%nat → last (take (S n) l) = l !! n.
Proof.
  intros H. rewrite last_lookup, length_take, lookup_take_lt by lia.
  f_equal. lia.
Qed.

Lemma rdp_unfold fuel points epsilon :
  rdp (S fuel) points epsilon =
  if bool_decide (length points ≤ 2)%nat then Ok points
  else
    let p0 := points !!! 0%nat in
    let pend := points !!! (length points - 1)%nat in
    let far := farthest_point (interior points) p0 pend 1 0 0%float in
    if (epsilon <? far.2)%float then
      results1 ← rdp fuel (take (far.1 + 1) points) epsilon;
      results2 ← rdp fuel (drop far.1 points) epsilon;
      Ok (removelast results1 ++ results2)
    else Ok [p0; pend].
Proof. simpl. by destruct (farthest_point _ _ _ _ _ _). Qed.


Lemma rdp_short fuel points epsilon :
  (length points ≤ 2)%nat → rdp fuel points epsilon = Ok points.
Proof.
  intros H. destruct fuel; simpl; by rewrite bool_decide_eq_true_2 by lia.
Qed.

(** No double exceeds infinity. *)
Lemma infinity_ltb (d : float) : (infinity <? d)%float = false.
Proof.
  rewrite ltb_spec. change (Prim2SF infinity) with (S754_infinity false).
  destruct (Prim2SF d) as [s|s| |s m e]; try done; by destruct s.
Qed.

(** The loop's maximum never exceeds a bound that neither its starting value
    nor any visited distance exceeds. *)
Lemma farthest_point_bounded epsilon pts p0 pend i index dmax :
  (epsilon <? dmax)%float = false →
  Forall (λ p, (epsilon <? distance_point_to_line p p0 pend)%float = false) pts →
  (epsilon <? (farthest_point pts p0 pend i index dmax).2)%float = false.
Proof.
  intros Hd Hall.
  destruct (farthest_point_cases pts p0 pend i index dmax)
    as [->|(k & p & Hk & ->)]; [done|]. simpl.
  eapply (Forall_lookup_1 _ _ _ _ Hall Hk).
Qed.

Lemma rdp_collapse points epsilon :
  (2 ≤ length points)%nat →
  (epsilon <? 0)%float = false →
  Forall (λ p, (epsilon <? distance_point_to_line p (points !!! 0%nat)
                   (points !!! (length points - 1)%nat))%float = false)
         (interior points) →
  ramer_douglas_peucker points epsilon
  = Ok [points !!! 0%nat; points !!! (length points - 1)%nat].
Proof.
  intros Hlen Heps Hall. unfold ramer_douglas_peucker.
  destruct points as [|a [|b [|c rest]]]; simpl in Hlen; try lia; [done|].
  remember (a :: b :: c :: rest) as points eqn:Hpts.
  assert (length points = S (S (S (length rest)))) as Hl by by subst.
  rewrite Hl, rdp_unfold, bool_decide_eq_false_2 by lia. cbv zeta.
  rewrite Hl in Hall |- *.
  by rewrite (farthest_point_bounded _ _ _ _ _ _ _ Heps Hall).
Qed.







Definition zigzag : list point := [(0, 0); (1, 5); (2, 0); (3, 5)].



(** More fuel never changes a result. *)
Lemma rdp_fuel_mono epsilon :
  ∀ fuel fuel' points r, (fuel ≤ fuel')%nat →
    rdp fuel points epsilon = Ok r → rdp fuel' points epsilon = Ok r.
Proof.
  induction fuel as [|fuel IH]; intros fuel' points r Hle Hr.
  - simpl in Hr. case_bool_decide; [|done].
    by rewrite rdp_short.
  - destruct fuel' as [|fuel']; [lia|].
    rewrite rdp_unfold in Hr |- *. case_bool_decide; [done|].
    cbv zeta in *. destruct (epsilon <? _)%float; [|done].
    destruct (rdp fuel (take _ _) _) as [r1|] eqn:H1; [|done].
    destruct (rdp fuel (drop _ _) _) as [r2|] eqn:H2; [|done].
    assert (fuel ≤ fuel')%nat as Hle' by lia.
    by rewrite (IH fuel' _ r1 Hle' H1), (IH fuel' _ r2 Hle' H2).
Qed.

(** The only exception of the recursion is [RecursionError]. *)
Lemma rdp_raises_only_recursion epsilon :
  ∀ fuel points e, rdp fuel points epsilon = Raise e → e = RecursionError.
Proof.
  induction fuel as [|fuel IH]; intros points e Hr.
  - simpl in Hr. case_bool_decide; congruence.
  - rewrite rdp_unfold in Hr. case_bool_decide; [done|].
    cbv zeta in *. destruct (epsilon <? _)%float; [|done].
    destruct (rdp fuel (take _ _) _) as [r1|] eqn:H1; [|by eapply IH; simplify_eq/=].
    destruct (rdp fuel (drop _ _) _) as [r2|] eqn:H2; [done|].
    eapply IH. by simplify_eq/=.
Qed.

(** A call that repeats itself on the same points never ends. *)
Lemma rdp_self_call points epsilon :
  ¬ (length points ≤ 2)%nat →
  (epsilon <? (farthest_point (interior points) (points !!! 0%nat)
       (points !!! (length points - 1)%nat) 1 0 0%float).2)%float = true →
  (farthest_point (interior points) (points !!! 0%nat)
       (points !!! (length points - 1)%nat) 1 0 0%float).1 = 0%nat →
  ∀ fuel, rdp fuel points epsilon = Raise RecursionError.
Proof.
  intros Hlong Hcmp Hidx. induction fuel as [|fuel IH].
  - simpl. by rewrite bool_decide_eq_false_2.
  - rewrite rdp_unfold, bool_decide_eq_false_2 by done. cbv zeta.
    rewrite Hcmp, Hidx, drop_0, IH.
    rewrite rdp_short by (rewrite length_take; lia). reflexivity.
Qed.

(** Depth [length points] decides whether the recursion ends. *)
Lemma rdp_fuel_enough epsilon :
  ∀ fuel points, (length points ≤ fuel)%nat →
    rdp fuel points epsilon = Raise RecursionError →
    ∀ fuel', rdp fuel' points epsilon = Raise RecursionError.
Proof.
  induction fuel as [|fuel IH]; intros points Hlen Hr fuel'.
  - simpl in Hr. rewrite bool_decide_eq_true_2 in Hr by lia. done.
  - rewrite rdp_unfold in Hr. case_bool_decide as Hshort; [done|].
    cbv zeta in Hr.
    destruct (epsilon <? _)%float eqn:Hcmp; [|done].
    destruct (farthest_point_cases (interior points) (points !!! 0%nat)
        (points !!! (length points - 1)%nat) 1 0 0%float)
      as [Hfar|(k & p & Hk & Hfar)].
    { apply rdp_self_call; [done|done|by rewrite Hfar]. }
    rewrite Hfar in Hr, Hcmp. cbn [fst snd] in Hr, Hcmp.
    apply lookup_lt_Some in Hk. rewrite interior_length in Hk.
    destruct fuel' as [|fuel'].
    { simpl. by rewrite bool_decide_eq_false_2. }
    rewrite rdp_unfold, bool_decide_eq_false_2 by done. cbv zeta.
    rewrite Hfar. cbn [fst snd]. rewrite Hcmp.
    destruct (rdp fuel (take _ _) _) as [r1|e1] eqn:H1.
    + destruct (rdp fuel (drop _ _) _) as [r2|e2] eqn:H2; [done|].
      pose proof (rdp_raises_only_recursion _ _ _ _ H2) as ->.
      assert (length (drop (1 + k) points) ≤ fuel)%nat as Hd
        by (rewrite length_drop; lia).
      rewrite (IH _ Hd H2 fuel').
      destruct (rdp fuel' (take _ _) _) as [r1'|e1] eqn:H1'; [reflexivity|].
      by rewrite (rdp_raises_only_recursion _ _ _ _ H1').
    + pose proof (rdp_raises_only_recursion _ _ _ _ H1) as ->.
      assert (length (take (1 + k + 1) points) ≤ fuel)%nat as Ht
        by (rewrite length_take; lia).
      by rewrite (IH _ Ht H1 fuel').
Qed.

(** [ramer_douglas_peucker] returns what the recursion returns at any depth
    at which it ends. *)
Lemma rdp_any_fuel points epsilon fuel r :
  rdp fuel points epsilon = Ok r → ramer_douglas_peucker points epsilon = Ok r.
Proof.
  intros Hr. unfold ramer_douglas_peucker.
  destruct (rdp (length points) points epsilon) as [r'|e] eqn:H.
  - apply (rdp_fuel_mono _ _ (fuel `max` length points)) in Hr, H; [|lia..].
    congruence.
  - pose proof (rdp_raises_only_recursion _ _ _ _ H) as ->.
    rewrite (rdp_fuel_enough _ _ _ (le_n _) H fuel) in Hr. done.
Qed.

(** The distances the top-level call measures: those of the interior points
    to the segment from the first point to the last. *)
Definition deviations (points : list point) : list float :=
  (λ p, distance_point_to_line p (points !!! 0%nat)
          (points !!! (length points - 1)%nat)) <$> interior points.






(** C3, as stated, fails on a sequence of one point: it is returned as it
    is, a sequence of one element and not of two. *)
Lemma rdp_single_point_not_two_elements :
  ramer_douglas_peucker [(5, 5)] infinity = Ok [(5, 5)]
  ∧ ramer_douglas_peucker [(5, 5)] infinity ≠ Ok [(5, 5); (5, 5)].
Proof. split; by vm_compute. Qed.

(** C3, amended: for a sequence of at least two points and an [epsilon] that
    is infinite, or that is not negative and is exceeded by none of the
    measured distances, the result is exactly the first and the last
    point. *)
Theorem rdp_collapses_to_end_points (points : list point) (epsilon : float) :
  (2 ≤ length points)%nat →
  epsilon = infinity
  ∨ ((epsilon <? 0)%float = false
     ∧ Forall (λ d, (epsilon <? d)%float = false) (deviations points)) →
  ∃ first final,
    head points = Some first ∧ last points = Some final
    ∧ ramer_douglas_peucker points epsilon = Ok [first; final].
Proof.
  intros Hlen Heps.
  exists (points !!! 0%nat), (points !!! (length points - 1)%nat).
  rewrite lookup_total_first, lookup_total_last by lia.
  split; [done|]. split; [done|].
  apply rdp_collapse; [done|..].
  - destruct Heps as [->|[? _]]; [apply infinity_ltb|done].
  - destruct Heps as [->|[_ Hall]].
    + apply Forall_forall. intros. apply infinity_ltb.
    + unfold deviations in Hall. by apply Forall_fmap in Hall.
Qed.

Lemma rdp_collapses_to_end_points_witness :
  (2 ≤ length zigzag)%nat
  ∧ (infinity = infinity
     ∨ ((infinity <? 0)%float = false
        ∧ Forall (λ d, (infinity <? d)%float = false) (deviations zigzag)))
  ∧ ∃ first final,
      head zigzag = Some first ∧ last zigzag = Some final
      ∧ ramer_douglas_peucker zigzag infinity = Ok [first; final].
Proof.
  assert (2 ≤ length zigzag)%nat as Hlen by (simpl; lia).
  split; [exact Hlen|]. split; [by left|].
  exact (rdp_collapses_to_end_points zigzag infinity Hlen (or_introl eq_refl)).
Defined.




End SimplifierFacts.

(** ** Lots: [LoteSerializer.get_area_calculada] *)

Module Lotes.
Import Num.

(** The loop of the Shoelace formula: [area] after [for i in range(n)]. *)
Definition shoelace_sum (vertices : list point) : Z :=
  let n := length vertices in
  foldl (λ area i,
           let j := ((i + 1) mod n)%nat in
           area + (vertices !!! i).1 * (vertices !!! j).2
                - (vertices !!! j).1 * (vertices !!! i).2)
        0 (seq 0 n).

(** [None] is Python's [None]; the vertices are integer pairs, so [area] is
    an exact integer until the final division by [2.0]. *)
Definition get_area_calculada (vertices : list point) : option float :=
  if bool_decide (vertices = []) || bool_decide (length vertices < 3)%nat
  then None
  else Some (float_of_int (Z.abs (shoelace_sum vertices)) / 2)%float.

End Lotes.

Module LotesFacts.
Import Num Lotes.

Definition cross (a b : point) : Z := a.1 * b.2 - b.1 * a.2.

(** The sum of the cross products of the consecutive pairs of a list. *)
Fixpoint chain (l : list point) : Z :=
  match l with
  | a :: (b :: _) as t => cross a b + chain t
  | _ => 0
  end.

(** The same sum around the closed polygon. *)
Definition closed_chain (l : list point) : Z := chain (l ++ take 1 l).

Lemma cross_antisym a b : cross b a = - cross a b.
Proof. unfold cross. lia. Qed.

Lemma chain_app l1 x l2 :
  chain (l1 ++ x :: l2) = chain (l1 ++ [x]) + chain (x :: l2).
Proof.
  induction l1 as [|a [|b l1] IH]; simpl in *; [lia| |].
  - destruct l2; simpl; lia.
  - rewrite IH. lia.
Qed.

Lemma chain_reverse l : chain (reverse l) = - chain l.
Proof.
  induction l as [|a [|b l] IH]; [done..|].
  rewrite reverse_cons, !reverse_cons in *.
  rewrite <- app_assoc. simpl app. rewrite chain_app, IH. simpl.
  rewrite cross_antisym. lia.
Qed.

Lemma closed_chain_swap (l1 l2 : list point) :
  closed_chain (l1 ++ l2) = closed_chain (l2 ++ l1).
Proof.
  unfold closed_chain.
  destruct l1 as [|a l1]; [by rewrite app_nil_r|].
  destruct l2 as [|b l2]; [by rewrite app_nil_r|].
  replace (((a :: l1) ++ b :: l2) ++ take 1 ((a :: l1) ++ b :: l2))
    with ((a :: l1) ++ b :: (l2 ++ [a])) by (simpl; by rewrite <- app_assoc).
  replace (((b :: l2) ++ a :: l1) ++ take 1 ((b :: l2) ++ a :: l1))
    with ((b :: l2) ++ a :: (l1 ++ [b])) by (simpl; by rewrite <- app_assoc).
  rewrite (chain_app (a :: l1) b), (chain_app (b :: l2) a). cbn [app]. lia.
Qed.

Lemma closed_chain_rotate k l : closed_chain (rotate k l) = closed_chain l.
Proof.
  unfold rotate. rewrite closed_chain_swap. by rewrite take_drop.
Qed.

Lemma closed_chain_reverse l : closed_chain (reverse l) = - closed_chain l.
Proof.
  destruct l as [|a l]; [done|].
  rewrite reverse_cons, closed_chain_swap. unfold closed_chain.
  replace (([a] ++ reverse l) ++ take 1 ([a] ++ reverse l))
    with (reverse ((a :: l) ++ take 1 (a :: l))).
  - apply chain_reverse.
  - simpl. by rewrite reverse_cons, reverse_app.
Qed.

Fixpoint sumZ (l : list Z) : Z :=
  match l with
  | [] => 0
  | x :: l => x + sumZ l
  end.

Lemma foldl_add_sub_sum {A} (u v : A → Z) (l : list A) (a0 : Z) :
  foldl (λ a i, a + u i - v i) a0 l = a0 + sumZ ((λ i, u i - v i) <$> l).
Proof.
  revert a0.
  induction l as [|x l IH]; intros a0; cbn [foldl fmap list_fmap sumZ].
  - lia.
  - rewrite IH. lia.
Qed.

Lemma chain_indexed (l : list point) :
  chain l
  = sumZ ((λ i, cross (l !!! i) (l !!! S i)) <$> seq 0 (length l - 1)).
Proof.
  induction l as [|a [|b l] IH]; [done..|].
  change (chain (a :: b :: l)) with (cross a b + chain (b :: l)).
  rewrite IH.
  replace (length (a :: b :: l) - 1)%nat with (S (length (b :: l) - 1))
    by (simpl; lia).
  cbn [seq fmap list_fmap sumZ].
  f_equal. rewrite <- fmap_S_seq, <- list_fmap_compose. done.
Qed.

Lemma shoelace_sum_closed_chain (vertices : list point) :
  shoelace_sum vertices = closed_chain vertices.
Proof.
  unfold shoelace_sum, closed_chain.
  cbv zeta. rewrite foldl_add_sub_sum, chain_indexed, Z.add_0_l.
  destruct vertices as [|v0 rest]; [done|].
  set (vertices := v0 :: rest).
  replace (length (vertices ++ take 1 vertices) - 1)%nat
    with (length vertices) by (rewrite length_app; simpl; lia).
  f_equal. apply list_fmap_ext. intros j i Hi.
  apply lookup_seq in Hi as [Hij Hi]. cbn [Nat.add] in Hij. subst j.
  unfold cross. rewrite (lookup_total_app_l vertices) by done.
  destruct (decide (S i = length vertices)) as [Heq|Hne].
  - replace (i + 1)%nat with (length vertices) by lia.
    rewrite Nat.Div0.mod_same.
    rewrite lookup_total_app_r by lia. rewrite Heq, Nat.sub_diag. done.
  - rewrite Nat.mod_small by lia.
    rewrite lookup_total_app_l by lia.
    replace (i + 1)%nat with (S i) by lia. done.
Qed.

(** The polygon moved by the vector [t]. *)
Definition translate (t : point) (vertices : list point) : list point :=
  (λ p, (p.1 + t.1, p.2 + t.2)) <$> vertices.

Lemma last_cons_default (l : list point) (a b : point) :
  List.last (b :: l) a = List.last l b.
Proof.
  revert a b. induction l as [|c l IH]; intros a b; [done|].
  change (List.last (b :: c :: l) a) with (List.last (c :: l) a).
  change (List.last (c :: l) b) with (List.last (c :: l) b).
  by rewrite (IH a c), (IH b c).
Qed.

Lemma chain_translate t a l :
  chain (translate t (a :: l))
  = chain (a :: l) + t.2 * (a.1 - (List.last l a).1)
                   + t.1 * ((List.last l a).2 - a.2).
Proof.
  revert a. induction l as [|b l IH]; intros a.
  - simpl. lia.
  - change (translate t (a :: b :: l))
      with ((a.1 + t.1, a.2 + t.2) :: translate t (b :: l)).
    change (chain (a :: b :: l)) with (cross a b + chain (b :: l)).
    change (translate t (b :: l))
      with ((b.1 + t.1, b.2 + t.2) :: translate t l) at 1.
    change (chain (_ :: _ :: translate t l))
      with (cross (a.1 + t.1, a.2 + t.2) (b.1 + t.1, b.2 + t.2)
            + chain (translate t (b :: l))).
    rewrite IH.
    rewrite (last_cons_default l a b).
    unfold cross. simpl. ring.
Qed.

Lemma closed_chain_translate t l :
  closed_chain (translate t l) = closed_chain l.
Proof.
  unfold closed_chain. destruct l as [|a l]; [done|].
  replace (translate t (a :: l) ++ take 1 (translate t (a :: l)))
    with (translate t (a :: (l ++ [a])))
    by (unfold translate; simpl; by rewrite fmap_app).
  change ((a :: l) ++ take 1 (a :: l)) with (a :: (l ++ [a])).
  rewrite chain_translate, last_last. ring.
Qed.

(** X4: The area does not depend on where the cyclic vertex list starts nor on
    its orientation. *)
Theorem get_area_calculada_rotate_reverse (vertices : list point) (k : nat) :
  get_area_calculada (rotate k vertices) = get_area_calculada vertices
  ∧ get_area_calculada (reverse vertices) = get_area_calculada vertices.
Proof.
  unfold get_area_calculada.
  rewrite length_rotate, length_reverse.
  rewrite !shoelace_sum_closed_chain, closed_chain_rotate, closed_chain_reverse.
  rewrite Z.abs_opp.
  assert (∀ l : list point, bool_decide (l = []) = bool_decide (length l = 0%nat))
    as Hnil by (intros; apply bool_decide_ext; symmetry;
                apply length_zero_iff_nil).
  by rewrite !Hnil, length_rotate, length_reverse.
Qed.

(** X5: The area does not depend on the origin of the coordinates. *)
Theorem get_area_calculada_translate (t : point) (vertices : list point) :
  get_area_calculada (translate t vertices) = get_area_calculada vertices.
Proof.
  unfold get_area_calculada.
  rewrite shoelace_sum_closed_chain, closed_chain_translate,
    <- shoelace_sum_closed_chain.
  unfold translate. rewrite length_fmap.
  by destruct vertices.
Qed.

(** An area is reported exactly for the lists of at least three vertices. *)
Theorem get_area_calculada_defined (vertices : list point) :
  is_Some (get_area_calculada vertices) ↔ (3 ≤ length vertices)%nat.
Proof.
  unfold get_area_calculada. rewrite is_Some_alt.
  repeat case_bool_decide; subst; simpl in *; split; intros; (done || lia).
Qed.

End LotesFacts.

(** ** Lot names: [LoteSerializer.create] *)

Module LoteNames.
Import Stdlib.Strings.Ascii DecimalString.

(** [str(n)] for an integer [n] that is not negative. *)
Definition digits (n : N) : string := NilZero.string_of_uint (N.to_uint n).

(** [k] zeros before [s]. *)
Fixpoint zeros (k : nat) (s : string) : string :=
  match k with
  | O => s
  | S k => String "0"%char (zeros k s)
  end.

(** The padding of a string of digits with zeros on the left, up to
    [width]. *)
Definition zfill (width : nat) (s : string) : string :=
  zeros (width - String.length s) s.

(** [f'{z:03d}']: the sign, then the digits padded with zeros to a width of
    three characters, sign included. *)
Definition format_03d (z : Z) : string :=
  if z <? 0 then String "-"%char (zfill 2 (digits (Z.to_N (- z))))
  else zfill 3 (digits (Z.to_N z)).

(** [next_id], from the identifier of [Lote.objects.last()], if there is
    one. *)
Definition next_id (last_lote : option Z) : Z :=
  match last_lote with
  | Some id => id + 1
  | None => 1
  end.

(** The name that [create] hands on to [super().create]: [nombre] is
    [validated_data.get('nombre')], [last_lote] the identifier of
    [Lote.objects.last()], which is queried only when the name is missing or
    empty. *)
Definition create (nombre : option string) (last_lote : option Z) : string :=
  match nombre with
  | Some s =>
      if bool_decide (s = "") then "Lote-" +:+ format_03d (next_id last_lote)
      else s
  | None => "Lote-" +:+ format_03d (next_id last_lote)
  end.

End LoteNames.

Module LoteNamesFacts.
Import Stdlib.Strings.Ascii DecimalString LoteNames.

(** Reading a decimal numeral, leading zeros and a sign included. *)
Definition read_digits (s : string) : option Z :=
  (λ d, Z.of_N (N.of_uint d)) <$> NilZero.uint_of_string s.

Definition read (s : string) : option Z :=
  match s with
  | String "-"%char rest => Z.opp <$> read_digits rest
  | _ => read_digits s
  end.

Lemma to_uint_not_nil (n : N) : N.to_uint n ≠ Decimal.Nil.
Proof.
  destruct n as [|p]; [done|]. simpl. intros H.
  pose proof (DecimalPos.Unsigned.of_to p) as Hp.
  rewrite H in Hp. done.
Qed.

Lemma read_digits_digits (n : N) : read_digits (digits n) = Some (Z.of_N n).
Proof.
  unfold read_digits, digits.
  rewrite NilZero.usu by apply to_uint_not_nil. simpl.
  by rewrite DecimalN.Unsigned.of_to.
Qed.

Lemma digits_not_empty (n : N) : digits n ≠ "".
Proof.
  intros H. pose proof (read_digits_digits n) as Hr. by rewrite H in Hr.
Qed.

Lemma read_digits_zero (s : string) :
  s ≠ "" → read_digits (String "0"%char s) = read_digits s.
Proof.
  intros Hs. unfold read_digits. destruct s as [|a s]; [done|].
  cbn [NilZero.uint_of_string NilEmpty.uint_of_string].
  by destruct (uint_of_char a (NilEmpty.uint_of_string s)).
Qed.

Lemma read_digits_zfill (width : nat) (s : string) :
  s ≠ "" → read_digits (zfill width s) = read_digits s.
Proof.
  intros Hs. unfold zfill.
  induction (width - String.length s)%nat as [|k IH]; [done|].
  cbn [zeros]. rewrite read_digits_zero; [done|].
  clear IH. by destruct k.
Qed.

(** The first character of a padded numeral is a digit. *)
Lemma zfill_digits_first (width : nat) (n : N) :
  ∃ a rest, zfill width (digits n) = String a rest ∧ a ≠ "-"%char.
Proof.
  unfold zfill. destruct (width - _)%nat as [|k].
  - cbn [zeros]. unfold digits, NilZero.string_of_uint.
    pose proof (to_uint_not_nil n) as Hn.
    destruct (N.to_uint n); [done|..]; cbn [NilEmpty.string_of_uint];
      by eexists _, _.
  - cbn [zeros]. by eexists _, _.
Qed.

Lemma read_format_03d (z : Z) : read (format_03d z) = Some z.
Proof.
  unfold format_03d. destruct (z <? 0) eqn:Hz.
  - apply Z.ltb_lt in Hz. cbn [read].
    rewrite read_digits_zfill, read_digits_digits by apply digits_not_empty.
    simpl. f_equal. lia.
  - apply Z.ltb_ge in Hz.
    destruct (zfill_digits_first 3 (Z.to_N z)) as (a & rest & Hfill & Ha).
    assert (read (zfill 3 (digits (Z.to_N z)))
            = read_digits (zfill 3 (digits (Z.to_N z)))) as ->.
    { rewrite Hfill. unfold read.
      destruct a as [[] [] [] [] [] [] [] []]; done. }
    rewrite read_digits_zfill, read_digits_digits by apply digits_not_empty.
    f_equal. lia.
Qed.

Lemma zfill_length (width : nat) (s : string) :
  String.length (zfill width s) = (width `max` String.length s)%nat.
Proof.
  unfold zfill.
  assert (∀ k, String.length (zeros k s) = (k + String.length s)%nat) as Hk.
  { induction k as [|k IH]; [done|]. cbn [zeros String.length]. lia. }
  rewrite Hk. lia.
Qed.

(** X28: A generated name is [Lote-] followed by at least three characters, from
    which [next_id] can be read back: two generated names are equal only for
    the same [next_id].  A name that is given and not empty is kept. *)
Theorem create_names (nombre : option string) (last_lote last_lote' : option Z) :
  (∀ s, nombre = Some s → s ≠ "" → create nombre last_lote = s)
  ∧ (∃ numeral, create None last_lote = "Lote-" +:+ numeral
       ∧ create (Some "") last_lote = "Lote-" +:+ numeral
       ∧ (3 ≤ String.length numeral)%nat
       ∧ read numeral = Some (next_id last_lote))
  ∧ (create None last_lote = create None last_lote'
     ↔ next_id last_lote = next_id last_lote').
Proof.
  split; [|split].
  - intros s -> Hs. unfold create. by rewrite bool_decide_eq_false_2.
  - exists (format_03d (next_id last_lote)). split; [done|]. split; [done|].
    split; [|apply read_format_03d].
    unfold format_03d. destruct (_ <? 0).
    + cbn [String.length]. rewrite zfill_length. lia.
    + rewrite zfill_length. lia.
  - unfold create. split; [|by intros ->].
    intros H. injection H as H.
    change (format_03d (next_id last_lote) = format_03d (next_id last_lote'))
      in H.
    pose proof (read_format_03d (next_id last_lote)) as H1.
    pose proof (read_format_03d (next_id last_lote')) as H2.
    rewrite H in H1. congruence.
Qed.

End LoteNamesFacts.

(** ** The merge distance, relative to the image diagonal *)

Module Scale.
Import Num.

(** [image_shape] is [(height, width)]. *)
Definition image_diagonal (image_shape : Z * Z) : float :=
  let '(image_height, image_width) := image_shape in
  sqrt_int (image_width ^ 2 + image_height ^ 2).

Definition merge_distance (image_shape : Z * Z) (merge_distance_percent : float)
    : float :=
  (image_diagonal image_shape * merge_distance_percent)%float.

End Scale.

(** ** Endpoint merger: [merge_nearby_endpoints] *)

Module Merger.
Import Num Scale.

(** An entry [(x, y, contour_idx, is_start)] of [endpoints]. *)
Record endpoint : Type := Endpoint {
  ep_point : point;
  ep_contour : nat;
  ep_is_start : bool;
}.

(** An entry [((c1, is_start1), (c2, is_start2), distance)] of
    [merge_pairs]. *)
Record merge_pair : Type := MergePair {
  mp_first : nat * bool;
  mp_second : nat * bool;
  mp_distance : float;
}.

(** The two end points of every contour of at least two points, in the
    order of the contours; [contour_idx] is the index of the first contour
    of the list. *)
Fixpoint collect_endpoints (contour_idx : nat) (contours : list (list point))
    : list endpoint :=
  match contours with
  | [] => []
  | contour :: rest =>
      (if bool_decide (2 ≤ length contour)%nat then
         [Endpoint (contour !!! 0%nat) contour_idx true;
          Endpoint (contour !!! (length contour - 1)%nat) contour_idx false]
       else [])
      ++ collect_endpoints (S contour_idx) rest
  end.

(** The inner loop [for j, ... in enumerate(endpoints[i+1:], i+1)]: [rest]
    are the end points still to visit and [j] the index of the first of
    them.  The result is the end point at which the loop breaks. *)
Fixpoint find_partner (merge_distance : float) (e1 : endpoint)
    (used_endpoints : gset nat) (j : nat) (rest : list endpoint)
    : option (nat * endpoint * float) :=
  match rest with
  | [] => None
  | e2 :: rest' =>
      if bool_decide (j ∈ used_endpoints)
         || bool_decide (ep_contour e1 = ep_contour e2)
      then find_partner merge_distance e1 used_endpoints (S j) rest'
      else
        let distance := euclid (ep_point e1) (ep_point e2) in
        if (distance <=? merge_distance)%float then Some (j, e2, distance)
        else find_partner merge_distance e1 used_endpoints (S j) rest'
  end.

(** The outer loop [for i, ... in enumerate(endpoints)], from index [i] on,
    with its two variables [merge_pairs] and [used_endpoints]. *)
Fixpoint find_pairs (merge_distance : float) (i : nat)
    (endpoints : list endpoint) (merge_pairs : list merge_pair)
    (used_endpoints : gset nat) : list merge_pair * gset nat :=
  match endpoints with
  | [] => (merge_pairs, used_endpoints)
  | e1 :: rest =>
      if bool_decide (i ∈ used_endpoints) then
        find_pairs merge_distance (S i) rest merge_pairs used_endpoints
      else
        match find_partner merge_distance e1 used_endpoints (S i) rest with
        | Some (j, e2, distance) =>
            find_pairs merge_distance (S i) rest
              (merge_pairs
               ++ [MergePair (ep_contour e1, ep_is_start e1)
                     (ep_contour e2, ep_is_start e2) distance])
              ({[j]} ∪ ({[i]} ∪ used_endpoints))
        | None =>
            find_pairs merge_distance (S i) rest merge_pairs used_endpoints
        end
  end.

(** [merge_pairs.sort(key=lambda x: x[2])]: a stable sort by ascending
    distance.  The keys are distances that passed [distance <= merge_distance],
    so none of them is NaN and [<] orders them totally. *)
Fixpoint insert_pair (p : merge_pair) (sorted : list merge_pair)
    : list merge_pair :=
  match sorted with
  | [] => [p]
  | q :: rest =>
      if (mp_distance p <? mp_distance q)%float then p :: q :: rest
      else q :: insert_pair p rest
  end.

Definition sort_pairs (merge_pairs : list merge_pair) : list merge_pair :=
  foldl (λ sorted p, insert_pair p sorted) [] merge_pairs.

(** One turn of the loop that applies the merges; [None] is a slot marked
    for removal. *)
Definition apply_merge (merged_contours : list (option (list point)))
    (p : merge_pair) : list (option (list point)) :=
  let '(c1, is_start1) := mp_first p in
  let '(c2, is_start2) := mp_second p in
  if bool_decide (length merged_contours ≤ c1)%nat
     || bool_decide (length merged_contours ≤ c2)%nat
  then merged_contours
  else
    match merged_contours !! c1, merged_contours !! c2 with
    | Some (Some contour1), Some (Some contour2) =>
        if bool_decide (contour1 = []) || bool_decide (contour2 = [])
        then merged_contours
        else
          let merged_contour :=
            match is_start1, is_start2 with
            | true, true => reverse contour1 ++ contour2
            | true, false => contour2 ++ contour1
            | false, true => contour1 ++ contour2
            | false, false => contour1 ++ reverse contour2
            end in
          <[c2 := None]> (<[c1 := Some merged_contour]> merged_contours)
    | _, _ => merged_contours
    end.

(** [[c for c in merged_contours if c is not None and len(c) >= 2]] *)
Definition compact (merged_contours : list (option (list point)))
    : list (list point) :=
  omap (λ c, match c with
             | Some c => if bool_decide (2 ≤ length c)%nat then Some c else None
             | None => None
             end) merged_contours.

(** [merge_pairs] once sorted. *)
Definition sorted_merge_pairs (contours : list (list point))
    (merge_distance : float) : list merge_pair :=
  let endpoints := collect_endpoints 0 contours in
  sort_pairs (find_pairs merge_distance 0 endpoints [] ∅).1.

Definition merge_nearby_endpoints (contours : list (list point))
    (image_shape : Z * Z) (merge_distance_percent : float)
    : list (list point) :=
  if bool_decide (length contours < 2)%nat then contours
  else
    let merge_distance := merge_distance image_shape merge_distance_percent in
    let merge_pairs := sorted_merge_pairs contours merge_distance in
    let merged_contours := foldl apply_merge (Some <$> contours) merge_pairs in
    compact merged_contours.

End Merger.


(** *** Properties of the endpoint merger *)

Module MergerFacts.
Import Num Scale Merger.

(** The end point of contour [tag.1] that [tag.2] names: its first point
    for a start, its last point otherwise. *)
Definition tagged_point (contours : list (list point)) (tag : nat * bool)
    : option point :=
  contour ← contours !! tag.1;
  if tag.2 then head contour else last contour.

(** A contour that has end points. *)
Definition long (contours : list (list point)) (c : nat) : Prop :=
  ∃ contour, contours !! c = Some contour ∧ (2 ≤ length contour)%nat.

Lemma collect_endpoints_spec contours k e :
  e ∈ collect_endpoints k contours →
  ∃ contour, contours !! (ep_contour e - k)%nat = Some contour
    ∧ (k ≤ ep_contour e)%nat ∧ (2 ≤ length contour)%nat
    ∧ (if ep_is_start e then head contour else last contour)
      = Some (ep_point e).
Proof.
  revert k. induction contours as [|contour rest IH]; intros k He; simpl in He.
  { by apply elem_of_nil in He. }
  apply elem_of_app in He as [He|He].
  - case_bool_decide as Hlen; [|by apply elem_of_nil in He].
    exists contour. rewrite !elem_of_cons, elem_of_nil in He.
    destruct He as [->|[->|[]]]; simpl; rewrite Nat.sub_diag; simpl;
      (split; [done|]); (split; [lia|]); (split; [done|]).
    + destruct contour; simpl in *; [lia|done].
    + rewrite last_lookup.
      replace (Init.Nat.pred (length contour)) with (length contour - 1)%nat
        by lia.
      apply list_lookup_lookup_total_lt. lia.
  - destruct (IH _ He) as (c & Hc & Hk & Hlen & Hp).
    exists c. replace (ep_contour e - k)%nat with (S (ep_contour e - S k)) by lia.
    simpl. split; [done|]. split; [lia|done].
Qed.

(** The inner loop breaks at the first end point after [e1] that is not yet
    used, belongs to another contour and is within the merge distance. *)
Lemma find_partner_spec merge_distance e1 used j rest j' e2 d :
  find_partner merge_distance e1 used j rest = Some (j', e2, d) →
  ∃ k, j' = (j + k)%nat ∧ rest !! k = Some e2
    ∧ (j' ∉ used) ∧ ep_contour e1 ≠ ep_contour e2
    ∧ d = euclid (ep_point e1) (ep_point e2)
    ∧ (d <=? merge_distance)%float = true
    ∧ ∀ k' e, (k' < k)%nat → rest !! k' = Some e →
        (j + k')%nat ∈ used ∨ ep_contour e1 = ep_contour e
        ∨ (euclid (ep_point e1) (ep_point e) <=? merge_distance)%float = false.
Proof.
  revert j. induction rest as [|e rest IH]; intros j Hfind; [done|].
  simpl in Hfind.
  destruct (bool_decide (j ∈ used) || bool_decide (ep_contour e1 = ep_contour e))
    eqn:Hskip.
  - destruct (IH _ Hfind) as (k & -> & Hk & Hu & Hc & Hd & Hle & Hfirst).
    exists (S k). split; [lia|]. split; [done|].
    replace (j + S k)%nat with (S j + k)%nat by lia.
    do 4 (split; [done|]).
    intros [|k'] e' Hlt He'; simplify_eq/=.
    + rewrite Nat.add_0_r.
      apply orb_true_iff in Hskip as [?%bool_decide_eq_true|?%bool_decide_eq_true];
        auto.
    + replace (j + S k')%nat with (S j + k')%nat by lia.
      apply (Hfirst k'); [lia|done].
  - apply orb_false_iff in Hskip as [Hu%bool_decide_eq_false Hc%bool_decide_eq_false].
    destruct (euclid (ep_point e1) (ep_point e) <=? merge_distance)%float eqn:Hle.
    + injection Hfind as <- <- <-. exists 0%nat. rewrite Nat.add_0_r.
      do 6 (split; [done|]). intros k' e' Hlt. lia.
    + destruct (IH _ Hfind) as (k & -> & Hk & Hu' & Hc' & Hd & Hle' & Hfirst).
      exists (S k). split; [lia|]. split; [done|].
      replace (j + S k)%nat with (S j + k)%nat by lia.
      do 4 (split; [done|]).
      intros [|k'] e' Hlt He'; simplify_eq/=.
      * rewrite Nat.add_0_r. auto.
      * replace (j + S k')%nat with (S j + k')%nat by lia.
        apply (Hfirst k'); [lia|done].
Qed.

(** What every recorded pair is: two end points of two different contours
    of at least two points each, at the recorded distance, which is within
    the merge distance. *)
Definition joins (contours : list (list point)) (merge_distance : float)
    (p : merge_pair) : Prop :=
  (mp_first p).1 ≠ (mp_second p).1
  ∧ long contours (mp_first p).1 ∧ long contours (mp_second p).1
  ∧ ∃ a b, tagged_point contours (mp_first p) = Some a
      ∧ tagged_point contours (mp_second p) = Some b
      ∧ mp_distance p = euclid a b
      ∧ (mp_distance p <=? merge_distance)%float = true.

Definition end_point_of (contours : list (list point)) (e : endpoint) : Prop :=
  long contours (ep_contour e)
  ∧ tagged_point contours (ep_contour e, ep_is_start e) = Some (ep_point e).

Lemma collect_endpoints_end_points contours :
  Forall (end_point_of contours) (collect_endpoints 0 contours).
Proof.
  apply Forall_forall. intros e He.
  destruct (collect_endpoints_spec _ _ _ He) as (c & Hc & _ & Hlen & Hp).
  rewrite Nat.sub_0_r in Hc. split; [by exists c|].
  unfold tagged_point. simpl. by rewrite Hc.
Qed.

Lemma find_pairs_joins contours merge_distance endpoints i merge_pairs used :
  Forall (end_point_of contours) endpoints →
  Forall (joins contours merge_distance) merge_pairs →
  Forall (joins contours merge_distance)
    (find_pairs merge_distance i endpoints merge_pairs used).1.
Proof.
  revert i merge_pairs used.
  induction endpoints as [|e1 rest IH]; intros i merge_pairs used Hends Hpairs;
    [done|].
  apply Forall_cons in Hends as [[Hl1 Hp1] Hrest]. simpl.
  case_bool_decide; [by apply IH|].
  destruct (find_partner _ _ _ _ _) as [[[j e2] d]|] eqn:Hfind; [|by apply IH].
  apply find_partner_spec in Hfind
    as (k & _ & Hk & _ & Hc & Hd & Hle & _).
  apply IH; [done|]. apply Forall_app. split; [done|].
  apply Forall_singleton.
  destruct (Forall_lookup_1 _ _ _ _ Hrest Hk) as [Hl2 Hp2].
  split; [done|]. split; [done|]. split; [done|].
  exists (ep_point e1), (ep_point e2).
  cbn [mp_first mp_second mp_distance]. by rewrite <- Hd.
Qed.

Lemma insert_pair_Forall (P : merge_pair → Prop) p sorted :
  P p → Forall P sorted → Forall P (insert_pair p sorted).
Proof.
  intros Hp. induction 1 as [|q rest Hq Hrest IH]; simpl.
  - by apply Forall_singleton.
  - destruct (_ <? _)%float.
    + constructor; [done|by constructor].
    + by constructor.
Qed.

Lemma sort_pairs_Forall (P : merge_pair → Prop) merge_pairs :
  Forall P merge_pairs → Forall P (sort_pairs merge_pairs).
Proof.
  unfold sort_pairs. generalize (@nil merge_pair) (Forall_nil_2 P).
  induction merge_pairs as [|p rest IH]; intros acc Hacc Hall; [exact Hacc|].
  apply Forall_cons in Hall as [Hp Hrest]. simpl.
  apply IH; [by apply insert_pair_Forall|done].
Qed.

Lemma sorted_merge_pairs_join contours merge_distance :
  Forall (joins contours merge_distance)
    (sorted_merge_pairs contours merge_distance).
Proof.
  apply sort_pairs_Forall, find_pairs_joins;
    [apply collect_endpoints_end_points|constructor].
Qed.

(** The points a slot contributes to the result. *)
Definition kept (slot : option (list point)) : list point :=
  match slot with
  | Some c => if bool_decide (2 ≤ length c)%nat then c else []
  | None => []
  end.

Definition kept_points (merged_contours : list (option (list point)))
    : list point :=
  mjoin (kept <$> merged_contours).

Lemma compact_points merged_contours :
  mjoin (compact merged_contours) = kept_points merged_contours.
Proof.
  unfold kept_points.
  induction merged_contours as [|[c|] l IH]; [done|..].
  - change (compact (Some c :: l))
      with (match (if bool_decide (2 ≤ length c)%nat then Some c else None)
            with Some y => y :: compact l | None => compact l end).
    change (mjoin (kept <$> Some c :: l))
      with ((if bool_decide (2 ≤ length c)%nat then c else [])
            ++ mjoin (kept <$> l)).
    rewrite <- IH. by case_bool_decide.
  - exact IH.
Qed.

Lemma kept_points_initial (contours : list (list point)) :
  kept_points (Some <$> contours)
  = mjoin (filter (λ c, 2 ≤ length c)%nat contours).
Proof.
  unfold kept_points. induction contours as [|c l IH]; [done|].
  rewrite filter_cons.
  change (mjoin (kept <$> (Some <$> c :: l)))
    with ((if bool_decide (2 ≤ length c)%nat then c else [])
          ++ mjoin (kept <$> (Some <$> l))).
  rewrite IH.
  case_bool_decide; [by rewrite decide_True|by rewrite decide_False].
Qed.

Lemma kept_points_cons slot l :
  kept_points (slot :: l) = kept slot ++ kept_points l.
Proof. done. Qed.

Lemma kept_points_insert l i old new :
  l !! i = Some old →
  kept_points (<[i:=new]> l) ++ kept old ≡ₚ kept_points l ++ kept new.
Proof.
  revert i. induction l as [|x l IH]; intros [|i] Hi; try done.
  - injection Hi as ->.
    change (<[0%nat:=new]> (old :: l)) with (new :: l).
    rewrite !kept_points_cons.
    rewrite <- !(assoc (++)). rewrite (comm (++) (kept_points l) (kept old)).
    rewrite (comm (++) (kept_points l) (kept new)).
    rewrite !(assoc (++)). by rewrite (comm (++) (kept new) (kept old)).
  - change (<[S i:=new]> (x :: l)) with (x :: <[i:=new]> l).
    rewrite !kept_points_cons, <- !(assoc (++)). f_equiv. by apply IH.
Qed.

(** What the loop that applies the merges keeps true. *)
Definition well_merged (contours : list (list point))
    (merged_contours : list (option (list point))) : Prop :=
  length merged_contours = length contours
  ∧ kept_points merged_contours ≡ₚ kept_points (Some <$> contours)
  ∧ ∀ c, long contours c →
      merged_contours !! c = Some None
      ∨ ∃ k, merged_contours !! c = Some (Some k) ∧ (2 ≤ length k)%nat.

Lemma well_merged_initial contours : well_merged contours (Some <$> contours).
Proof.
  split; [by rewrite length_fmap|]. split; [done|].
  intros c (k & Hk & Hlen). right. exists k.
  by rewrite list_lookup_fmap, Hk.
Qed.

Lemma apply_merge_well_merged contours merge_distance merged_contours p :
  joins contours merge_distance p →
  well_merged contours merged_contours →
  well_merged contours (apply_merge merged_contours p).
Proof.
  intros (Hne & Hl1 & Hl2 & _) (Hlen & Hperm & Hslots).
  unfold apply_merge.
  destruct (mp_first p) as [c1 is_start1], (mp_second p) as [c2 is_start2].
  simpl in Hne, Hl1, Hl2.
  destruct (_ || _); [done|].
  destruct (Hslots c1 Hl1) as [H1|(k1 & H1 & Hk1)]; rewrite H1; [done|].
  destruct (Hslots c2 Hl2) as [H2|(k2 & H2 & Hk2)]; rewrite H2; [done|].
  rewrite !bool_decide_eq_false_2
    by (intros ->; simpl in *; lia). simpl.
  set (m := match is_start1 with
            | true => if is_start2 then reverse k1 ++ k2 else k2 ++ k1
            | false => if is_start2 then k1 ++ k2 else k1 ++ reverse k2
            end).
  assert (m ≡ₚ k1 ++ k2) as Hm.
  { unfold m. destruct is_start1, is_start2;
      rewrite ?reverse_Permutation; [done|apply (comm (++))|done|done]. }
  assert (2 ≤ length m)%nat as Hmlen.
  { rewrite Hm, length_app. lia. }
  split; [by rewrite !length_insert|]. split.
  - rewrite <- Hperm.
    pose proof (kept_points_insert merged_contours c1 _ (Some m) H1) as P1.
    pose proof (kept_points_insert (<[c1:=Some m]> merged_contours) c2
                  (Some k2) None) as P2.
    rewrite list_lookup_insert_ne in P2 by done. specialize (P2 H2).
    simpl in P1, P2.
    rewrite !bool_decide_eq_true_2 in P1 by done.
    rewrite bool_decide_eq_true_2, app_nil_r in P2 by done.
    apply (Permutation_app_inv_r (k2 ++ k1)).
    rewrite (assoc (++)), P2, P1, Hm. by rewrite (comm (++) k2 k1).
  - intros c Hc. destruct (decide (c = c2)) as [->|Hc2].
    { left. apply list_lookup_insert_eq. rewrite length_insert.
      by apply lookup_lt_Some in H2. }
    rewrite list_lookup_insert_ne by done.
    destruct (decide (c = c1)) as [->|Hc1].
    { right. exists m. split; [|done]. apply list_lookup_insert_eq.
      by apply lookup_lt_Some in H1. }
    rewrite list_lookup_insert_ne by done. by apply Hslots.
Qed.

Lemma foldl_apply_merge_well_merged contours merge_distance merge_pairs :
  Forall (joins contours merge_distance) merge_pairs →
  ∀ merged_contours, well_merged contours merged_contours →
    well_merged contours (foldl apply_merge merged_contours merge_pairs).
Proof.
  induction 1 as [|p rest Hp Hrest IH]; intros l Hl; [done|].
  simpl. eapply IH, apply_merge_well_merged; done.
Qed.

Lemma compact_length merged_contours :
  (length (compact merged_contours) ≤ length merged_contours)%nat.
Proof.
  induction merged_contours as [|[c|] l IH]; simpl; [done| |lia].
  change (compact (Some c :: l))
    with (match (if bool_decide (2 ≤ length c)%nat then Some c else None)
          with Some y => y :: compact l | None => compact l end).
  case_bool_decide; simpl; lia.
Qed.

Lemma compact_initial (contours : list (list point)) :
  compact (Some <$> contours) = filter (λ c, 2 ≤ length c)%nat contours.
Proof.
  induction contours as [|c l IH]; [done|].
  rewrite filter_cons, <- IH.
  change (compact (Some <$> c :: l))
    with (match (if bool_decide (2 ≤ length c)%nat then Some c else None)
          with Some y => y :: compact (Some <$> l)
          | None => compact (Some <$> l) end).
  case_bool_decide; [by rewrite decide_True|by rewrite decide_False].
Qed.

(** No end point of one contour is within the merge distance of an end
    point of another. *)
Definition ends_apart (contours : list (list point)) (merge_distance : float)
    : Prop :=
  let endpoints := collect_endpoints 0 contours in
  Forall (λ e1,
    Forall (λ e2,
      ep_contour e1 ≠ ep_contour e2 →
      (euclid (ep_point e1) (ep_point e2) <=? merge_distance)%float = false)
    endpoints) endpoints.

Lemma find_partner_none merge_distance e1 used j rest :
  Forall (λ e2, ep_contour e1 ≠ ep_contour e2 →
     (euclid (ep_point e1) (ep_point e2) <=? merge_distance)%float = false)
    rest →
  find_partner merge_distance e1 used j rest = None.
Proof.
  intros Hall. revert j. induction Hall as [|e rest He Hrest IH]; intros j;
    [done|]. simpl.
  destruct (bool_decide (j ∈ used)); simpl; [apply IH|].
  case_bool_decide as Hc; simpl; [apply IH|].
  rewrite (He Hc). apply IH.
Qed.

Lemma find_pairs_none merge_distance (all : list endpoint) endpoints i
    merge_pairs used :
  endpoints `suffix_of` all →
  Forall (λ e1,
    Forall (λ e2,
      ep_contour e1 ≠ ep_contour e2 →
      (euclid (ep_point e1) (ep_point e2) <=? merge_distance)%float = false)
    all) all →
  find_pairs merge_distance i endpoints merge_pairs used = (merge_pairs, used).
Proof.
  intros Hsuf Hall. revert i Hsuf.
  induction endpoints as [|e1 rest IH]; intros i Hsuf; [done|]. simpl.
  assert (rest `suffix_of` all) as Hrest by by eapply suffix_cons_l.
  case_bool_decide; [by apply IH|].
  rewrite find_partner_none; [by apply IH|].
  assert (e1 ∈ all) as He1.
  { destruct Hsuf as [k ->]. apply elem_of_app. right. by left. }
  apply (proj1 (Forall_forall _ _) Hall) in He1.
  apply Forall_forall. intros e2 He2. apply (proj1 (Forall_forall _ _) He1).
  destruct Hrest as [k ->]. apply elem_of_app. by right.
Qed.

(** X6: Merging neither loses nor duplicates a vertex: the vertices of the
    result are, up to their order, those of the input contours of at least
    two points (of all input contours when there are fewer than two, the
    list being returned as it is); and there are no more contours than
    before. *)
Theorem merge_nearby_endpoints_keeps_vertices (contours : list (list point))
    (image_shape : Z * Z) (merge_distance_percent : float) :
  mjoin (merge_nearby_endpoints contours image_shape merge_distance_percent)
  ≡ₚ mjoin (if bool_decide (length contours < 2)%nat then contours
            else filter (λ c, 2 ≤ length c)%nat contours)
  ∧ (length (merge_nearby_endpoints contours image_shape
               merge_distance_percent) ≤ length contours)%nat.
Proof.
  unfold merge_nearby_endpoints. case_bool_decide; [done|]. cbv zeta.
  set (md := merge_distance _ _).
  pose proof (foldl_apply_merge_well_merged contours md _
    (sorted_merge_pairs_join contours md) _ (well_merged_initial contours))
    as (Hlen & Hperm & _).
  split.
  - by rewrite compact_points, Hperm, kept_points_initial.
  - rewrite <- Hlen. apply compact_length.
Qed.

(** X7: Every recorded pair joins end points of two different contours, each of
    at least two points, and its recorded distance is the distance of these
    two end points, which is at most the merge distance: a contour is never
    paired, hence never concatenated, with itself. *)
Theorem merge_pairs_join_distinct_contours (contours : list (list point))
    (merge_distance : float) :
  Forall (λ p,
      (mp_first p).1 ≠ (mp_second p).1
      ∧ long contours (mp_first p).1 ∧ long contours (mp_second p).1
      ∧ ∃ a b, tagged_point contours (mp_first p) = Some a
          ∧ tagged_point contours (mp_second p) = Some b
          ∧ mp_distance p = euclid a b
          ∧ (mp_distance p <=? merge_distance)%float = true)
    (sorted_merge_pairs contours merge_distance).
Proof. apply sorted_merge_pairs_join. Qed.

(** X8: The partner of an end point is the first later end point, in index
    order, that is not used yet, lies on another contour and is within the
    merge distance; later and closer candidates play no part. *)
Theorem find_partner_first_fit (merge_distance : float) (e1 : endpoint)
    (used_endpoints : gset nat) (j : nat) (rest : list endpoint)
    (j' : nat) (e2 : endpoint) (d : float) :
  find_partner merge_distance e1 used_endpoints j rest = Some (j', e2, d) →
  ∃ k, j' = (j + k)%nat ∧ rest !! k = Some e2
    ∧ (j' ∉ used_endpoints) ∧ ep_contour e1 ≠ ep_contour e2
    ∧ d = euclid (ep_point e1) (ep_point e2)
    ∧ (d <=? merge_distance)%float = true
    ∧ ∀ k' e, (k' < k)%nat → rest !! k' = Some e →
        (j + k')%nat ∈ used_endpoints ∨ ep_contour e1 = ep_contour e
        ∨ (euclid (ep_point e1) (ep_point e) <=? merge_distance)%float = false.
Proof. apply find_partner_spec. Qed.

Definition three_fragments : list (list point) :=
  [[(0, 0); (100, 0)]; [(103, 0); (200, 0)]; [(101, 0); (101, 50)]].

Definition end_of_first : endpoint := Endpoint (100, 0) 0 false.
Definition start_of_second : endpoint := Endpoint (103, 0) 1 true.

Lemma find_partner_first_fit_witness :
  find_partner 5 end_of_first ∅ 2 (drop 2 (collect_endpoints 0 three_fragments))
  = Some (2%nat, start_of_second, 3%float)
  ∧ ∃ k, 2%nat = (2 + k)%nat
      ∧ drop 2 (collect_endpoints 0 three_fragments) !! k
        = Some start_of_second
      ∧ (2%nat ∉ (∅ : gset nat))
      ∧ ep_contour end_of_first ≠ ep_contour start_of_second
      ∧ 3%float = euclid (ep_point end_of_first) (ep_point start_of_second)
      ∧ (3 <=? 5)%float = true
      ∧ ∀ k' e, (k' < k)%nat →
          drop 2 (collect_endpoints 0 three_fragments) !! k' = Some e →
          (2 + k')%nat ∈ (∅ : gset nat)
          ∨ ep_contour end_of_first = ep_contour e
          ∨ (euclid (ep_point end_of_first) (ep_point e) <=? 5)%float = false.
Proof.
  assert (find_partner 5 end_of_first ∅ 2
            (drop 2 (collect_endpoints 0 three_fragments))
          = Some (2%nat, start_of_second, 3%float)) as H
    by (vm_compute; reflexivity).
  split; [exact H|].
  exact (find_partner_first_fit 5 end_of_first ∅ 2 _ _ _ _ H).
Defined.

(** X9: When no end point of one contour is within the merge distance of an end
    point of another, nothing is merged: of two or more contours, those of
    at least two points are returned unchanged and in order. *)
Theorem merge_nearby_endpoints_ends_apart (contours : list (list point))
    (image_shape : Z * Z) (merge_distance_percent : float) :
  (2 ≤ length contours)%nat →
  ends_apart contours (merge_distance image_shape merge_distance_percent) →
  merge_nearby_endpoints contours image_shape merge_distance_percent
  = filter (λ c, 2 ≤ length c)%nat contours.
Proof.
  intros Hlen Hapart. unfold merge_nearby_endpoints, sorted_merge_pairs.
  rewrite bool_decide_eq_false_2 by lia. cbv zeta.
  rewrite (find_pairs_none _ (collect_endpoints 0 contours)); [|done..].
  apply compact_initial.
Qed.

Definition two_far_fragments : list (list point) :=
  [[(0, 0); (100, 0)]; [(7, 7)]; [(0, 50); (100, 50)]].

Lemma two_far_fragments_apart :
  ends_apart two_far_fragments (merge_distance (384, 512) 0.0078125).
Proof.
  unfold ends_apart. cbv zeta. apply (bool_decide_unpack _). by vm_compute.
Qed.

Lemma merge_nearby_endpoints_ends_apart_witness :
  (2 ≤ length two_far_fragments)%nat
  ∧ ends_apart two_far_fragments (merge_distance (384, 512) 0.0078125)
  ∧ merge_nearby_endpoints two_far_fragments (384, 512) 0.0078125
    = filter (λ c, 2 ≤ length c)%nat two_far_fragments.
Proof.
  assert (2 ≤ length two_far_fragments)%nat as Hlen by (simpl; lia).
  split; [exact Hlen|]. split; [exact two_far_fragments_apart|].
  exact (merge_nearby_endpoints_ends_apart two_far_fragments (384, 512)
           0.0078125 Hlen two_far_fragments_apart).
Defined.

End MergerFacts.

(** ** Point unifier: [unify_close_points] *)

Module Unifier.
Import Num Scale.

(** An entry of [all_points].  Its fields [merged] and [cluster_id] are the
    ones the clustering loop updates: [merged] is kept as the set of the
    indices whose flag is set; [cluster_id] is written and never read. *)
Record point_data : Type := PointData {
  coords : point;
  contour_idx : nat;
  point_idx : nat;
  grid_key : Z * Z;
}.

(** [int(x // grid_size)] *)
Definition grid_coordinate (x : Z) (grid_size : float) : result Z :=
  q ← int_floordiv_float x grid_size; int_of_float q.

(** The loop over the points of one contour that fills [all_points] and
    [spatial_index]. *)
Fixpoint index_contour (grid_size : float) (contour_idx point_idx : nat)
    (contour : list point)
    (all_points : list point_data) (spatial_index : gmap (Z * Z) (list nat))
    : result (list point_data * gmap (Z * Z) (list nat)) :=
  match contour with
  | [] => Ok (all_points, spatial_index)
  | p :: rest =>
      grid_x ← grid_coordinate p.1 grid_size;
      grid_y ← grid_coordinate p.2 grid_size;
      let grid_key := (grid_x, grid_y) in
      let all_points :=
        all_points ++ [PointData p contour_idx point_idx grid_key] in
      let spatial_index :=
        <[grid_key := default [] (spatial_index !! grid_key)
                      ++ [(length all_points - 1)%nat]]> spatial_index in
      index_contour grid_size contour_idx (S point_idx) rest
        all_points spatial_index
  end.

Fixpoint index_contours (grid_size : float) (contour_idx : nat)
    (contours : list (list point))
    (all_points : list point_data) (spatial_index : gmap (Z * Z) (list nat))
    : result (list point_data * gmap (Z * Z) (list nat)) :=
  match contours with
  | [] => Ok (all_points, spatial_index)
  | contour :: rest =>
      '(all_points, spatial_index) ←
        index_contour grid_size contour_idx 0 contour all_points spatial_index;
      index_contours grid_size (S contour_idx) rest all_points spatial_index
  end.

(** [(dx, dy)] in the order of the two nested loops over [[-1, 0, 1]]. *)
Definition neighbourhood : list (Z * Z) :=
  [(-1, -1); (-1, 0); (-1, 1); (0, -1); (0, 0); (0, 1); (1, -1); (1, 0); (1, 1)].

(** The candidates of a seed in the order in which the three nested loops
    visit them. *)
Definition candidates (spatial_index : gmap (Z * Z) (list nat))
    (grid_key : Z * Z) : list nat :=
  neighbourhood ≫= λ d,
    default [] (spatial_index !! (grid_key.1 + d.1, grid_key.2 + d.2)).

(** One candidate of the seed [point_idx]: the loop's variables are the
    [cluster] and the [merged] flags.  Every index of [spatial_index] is an
    index of [all_points], so the lookup finds the candidate. *)
Definition scan_candidate (merge_distance : float)
    (all_points : list point_data) (point_idx : nat) (seed : point_data)
    (st : list nat * gset nat) (candidate_idx : nat) : list nat * gset nat :=
  match all_points !! candidate_idx with
  | Some candidate =>
      if bool_decide (candidate_idx ∈ st.2)
         || bool_decide (candidate_idx = point_idx)
      then st
      else
        let distance := euclid (coords seed) (coords candidate) in
        if (distance <=? merge_distance)%float then
          (st.1 ++ [candidate_idx], {[candidate_idx]} ∪ st.2)
        else st
  | None => st
  end.

(** The clustering loop [for point_idx, point_data in enumerate(all_points)]
    from index [point_idx] on; only clusters of more than one point are
    recorded. *)
Fixpoint cluster_loop (merge_distance : float) (all_points : list point_data)
    (spatial_index : gmap (Z * Z) (list nat)) (point_idx : nat)
    (todo : list point_data) (clusters : list (list nat)) (merged : gset nat)
    : list (list nat) :=
  match todo with
  | [] => clusters
  | seed :: rest =>
      if bool_decide (point_idx ∈ merged) then
        cluster_loop merge_distance all_points spatial_index (S point_idx)
          rest clusters merged
      else
        let st :=
          foldl (scan_candidate merge_distance all_points point_idx seed)
            ([point_idx], {[point_idx]} ∪ merged)
            (candidates spatial_index (grid_key seed)) in
        cluster_loop merge_distance all_points spatial_index (S point_idx)
          rest
          (if bool_decide (1 < length st.1)%nat then clusters ++ [st.1]
           else clusters)
          st.2
  end.

(** [2.0] for the first and the last point of a contour, [1.0] otherwise. *)
Definition weight (contours : list (list point)) (pd : point_data) : float :=
  let contour := default [] (contours !! contour_idx pd) in
  if bool_decide (point_idx pd = 0%nat)
     || bool_decide (Z.of_nat (point_idx pd) = Z.of_nat (length contour) - 1)
  then 2%float else 1%float.

(** [(total_weight, weighted_x, weighted_y)] after the loop over a
    cluster. *)
Definition cluster_sums (contours : list (list point))
    (all_points : list point_data) (cluster : list nat)
    : float * float * float :=
  foldl (λ sums idx,
           match all_points !! idx with
           | Some pd =>
               let w := weight contours pd in
               (sums.1.1 + w,
                sums.1.2 + float_of_int (coords pd).1 * w,
                sums.2 + float_of_int (coords pd).2 * w)%float
           | None => sums
           end)
        (0%float, 0%float, 0%float) cluster.

(** The loop that fills [cluster_centroids]. *)
Fixpoint centroid_loop (contours : list (list point))
    (all_points : list point_data) (clusters : list (list nat))
    (cluster_centroids : gmap (nat * nat) point)
    : result (gmap (nat * nat) point) :=
  match clusters with
  | [] => Ok cluster_centroids
  | cluster :: rest =>
      let '(total_weight, weighted_x, weighted_y) :=
        cluster_sums contours all_points cluster in
      centroid_x ← round_float (weighted_x / total_weight);
      centroid_y ← round_float (weighted_y / total_weight);
      let cluster_centroids :=
        foldl (λ m idx,
                 match all_points !! idx with
                 | Some pd =>
                     <[(contour_idx pd, point_idx pd)
                       := (centroid_x, centroid_y)]> m
                 | None => m
                 end)
              cluster_centroids cluster in
      centroid_loop contours all_points rest cluster_centroids
  end.

(** The loop over the points of one contour that builds [unified_contour],
    from index [point_idx] on, with its variable [prev_point]. *)
Fixpoint unify_contour (merge_distance : float)
    (cluster_centroids : gmap (nat * nat) point) (contour_idx point_idx : nat)
    (prev_point : option point) (contour : list point) : list point :=
  match contour with
  | [] => []
  | original_point :: rest =>
      let new_point :=
        default original_point (cluster_centroids !! (contour_idx, point_idx)) in
      match prev_point with
      | None =>
          new_point
          :: unify_contour merge_distance cluster_centroids contour_idx
               (S point_idx) (Some new_point) rest
      | Some prev =>
          if (merge_distance * 0.5 <=? euclid new_point prev)%float then
            new_point
            :: unify_contour merge_distance cluster_centroids contour_idx
                 (S point_idx) (Some new_point) rest
          else
            unify_contour merge_distance cluster_centroids contour_idx
              (S point_idx) (Some prev) rest
      end
  end.

(** [total_length] of a unified contour. *)
Definition total_length (unified_contour : list point) : float :=
  foldl (λ total seg, (total + euclid seg.1 seg.2)%float) 0%float
    (zip unified_contour (drop 1 unified_contour)).

(** The final validation of a unified contour. *)
Definition significant (merge_distance : float) (unified_contour : list point)
    : bool :=
  bool_decide (2 ≤ length unified_contour)%nat
  && (merge_distance * 2 <=? total_length unified_contour)%float.

Fixpoint unify_contours (merge_distance : float)
    (cluster_centroids : gmap (nat * nat) point) (contour_idx : nat)
    (contours : list (list point)) : list (list point) :=
  match contours with
  | [] => []
  | contour :: rest =>
      let unified_contour :=
        unify_contour merge_distance cluster_centroids contour_idx 0 None
          contour in
      (if significant merge_distance unified_contour then [unified_contour]
       else [])
      ++ unify_contours merge_distance cluster_centroids (S contour_idx) rest
  end.

(** Steps 1 and 2: [all_points] and the recorded [clusters]. *)
Definition find_clusters (contours : list (list point))
    (merge_distance : float) : result (list point_data * list (list nat)) :=
  let grid_size := (merge_distance * 2)%float in
  '(all_points, spatial_index) ← index_contours grid_size 0 contours [] ∅;
  Ok (all_points,
      cluster_loop merge_distance all_points spatial_index 0 all_points [] ∅).

Definition unify_close_points (contours : list (list point))
    (image_shape : Z * Z) (merge_distance_percent : float)
    : result (list (list point)) :=
  if bool_decide (contours = []) then Ok contours
  else
    let merge_distance := merge_distance image_shape merge_distance_percent in
    '(all_points, clusters) ← find_clusters contours merge_distance;
    cluster_centroids ← centroid_loop contours all_points clusters ∅;
    Ok (unify_contours merge_distance cluster_centroids 0 contours).

End Unifier.

(** *** Properties of the point unifier *)

Module UnifierFacts.
Import Num Scale Unifier.

(** Consecutive points are at least half the merge distance apart, the
    first of them from [prev] when there is one. *)
Fixpoint spaced (merge_distance : float) (prev : option point)
    (l : list point) : Prop :=
  match l with
  | [] => True
  | p :: rest =>
      match prev with
      | None => True
      | Some pv => (merge_distance * 0.5 <=? euclid p pv)%float = true
      end
      ∧ spaced merge_distance (Some p) rest
  end.

Lemma unify_contour_spaced md centroids ci pi prev contour :
  spaced md prev (unify_contour md centroids ci pi prev contour).
Proof.
  revert pi prev. induction contour as [|p rest IH]; intros pi prev; [done|].
  cbn [unify_contour]. destruct prev as [pv|].
  - destruct (_ <=? _)%float eqn:Hfar; [|apply IH].
    split; [done|apply IH].
  - split; [done|apply IH].
Qed.

Lemma spaced_lookup md prev l i p q :
  spaced md prev l → l !! i = Some p → l !! S i = Some q →
  (md * 0.5 <=? euclid q p)%float = true.
Proof.
  revert prev i. induction l as [|a l IH]; intros prev i Hsp Hp Hq; [done|].
  destruct Hsp as [_ Hsp]. destruct i as [|i].
  - simpl in Hp, Hq. injection Hp as ->.
    destruct l as [|b l]; [done|]. simpl in Hq. injection Hq as ->.
    by destruct Hsp.
  - by apply (IH (Some a) i).
Qed.

(** A second pass without centroids leaves a unified contour as it is. *)
Lemma unify_contour_fixed md centroids ci pi ci' pi' prev contour :
  unify_contour md ∅ ci' pi' prev
    (unify_contour md centroids ci pi prev contour)
  = unify_contour md centroids ci pi prev contour.
Proof.
  revert pi pi' prev.
  induction contour as [|p rest IH]; intros pi pi' prev; [done|].
  cbn [unify_contour].
  set (np := default p (centroids !! (ci, pi))).
  destruct prev as [pv|].
  - destruct (md * 0.5 <=? euclid np pv)%float eqn:Hfar; [|apply IH].
    cbn [unify_contour]. rewrite lookup_empty. cbn [default].
    rewrite Hfar. f_equal. apply IH.
  - cbn [unify_contour]. rewrite lookup_empty. cbn [default].
    f_equal. apply IH.
Qed.

(** What every contour of the result is. *)
Definition unified (md : float) (u : list point) : Prop :=
  significant md u = true
  ∧ spaced md None u
  ∧ ∀ ci, unify_contour md ∅ ci 0 None u = u.

Lemma unify_contours_unified md centroids ci contours :
  Forall (unified md) (unify_contours md centroids ci contours)
  ∧ (length (unify_contours md centroids ci contours) ≤ length contours)%nat.
Proof.
  revert ci. induction contours as [|c rest IH]; intros ci.
  { split; [constructor|done]. }
  cbn [unify_contours]. destruct (IH (S ci)) as [Hall Hlen].
  destruct (significant _ _) eqn:Hsig; cbn [app length]; [|split; [done|lia]].
  split; [|lia]. constructor; [|done].
  split; [done|]. split; [apply unify_contour_spaced|].
  intros ci'. apply unify_contour_fixed.
Qed.

Lemma unify_contours_fixed md ci out :
  Forall (unified md) out → unify_contours md ∅ ci out = out.
Proof.
  intros Hall. revert ci.
  induction Hall as [|u rest (Hsig & _ & Hfix) _ IH]; intros ci; [done|].
  cbn [unify_contours]. by rewrite Hfix, Hsig, IH.
Qed.

Lemma unify_close_points_inv contours image_shape pct out :
  unify_close_points contours image_shape pct = Ok out →
  Forall (unified (merge_distance image_shape pct)) out
  ∧ (length out ≤ length contours)%nat.
Proof.
  unfold unify_close_points. case_bool_decide as Hnil.
  { intros [= <-]. subst. split; [constructor|done]. }
  cbv zeta.
  destruct (find_clusters _ _) as [[all_points clusters]|]; [|done].
  cbn [mbind result_bind].
  destruct (centroid_loop _ _ _ _) as [centroids|]; [|done].
  cbn [mbind result_bind]. intros [= <-]. apply unify_contours_unified.
Qed.

Lemma index_contour_zero_grid grid_size ci pi contour all_points index :
  (grid_size =? 0)%float = true → contour ≠ [] →
  index_contour grid_size ci pi contour all_points index
  = Raise ZeroDivisionError.
Proof.
  intros Hzero Hne. destruct contour as [|p rest]; [done|].
  cbn [index_contour]. unfold grid_coordinate, int_floordiv_float.
  by rewrite Hzero.
Qed.

Lemma index_contours_zero_grid grid_size ci contours all_points index :
  (grid_size =? 0)%float = true → Exists (λ c, c ≠ []) contours →
  index_contours grid_size ci contours all_points index
  = Raise ZeroDivisionError.
Proof.
  intros Hzero Hex. revert ci.
  induction Hex as [c rest Hc|c rest Hex IH]; intros ci; cbn [index_contours].
  - by rewrite index_contour_zero_grid.
  - destruct c as [|p c]; [apply IH|].
    by rewrite index_contour_zero_grid.
Qed.

(** X10: The contours of a result: no more than in the input, each of at least
    two points, of total length at least twice the merge distance, and with
    consecutive points at least half the merge distance apart. *)
Theorem unify_close_points_output (contours : list (list point))
    (image_shape : Z * Z) (merge_distance_percent : float)
    (out : list (list point)) :
  unify_close_points contours image_shape merge_distance_percent = Ok out →
  let merge_distance := merge_distance image_shape merge_distance_percent in
  (length out ≤ length contours)%nat
  ∧ Forall (λ u,
      (2 ≤ length u)%nat
      ∧ (merge_distance * 2 <=? total_length u)%float = true
      ∧ ∀ i p q, u !! i = Some p → u !! S i = Some q →
          (merge_distance * 0.5 <=? euclid q p)%float = true) out.
Proof.
  intros Hout md. apply unify_close_points_inv in Hout as [Hall Hlen].
  split; [done|]. eapply Forall_impl; [exact Hall|].
  intros u (Hsig & Hsp & _). unfold significant in Hsig.
  apply andb_true_iff in Hsig as [Hlen2%bool_decide_eq_true Htot].
  split; [done|]. split; [done|].
  intros i p q. by apply (spaced_lookup _ None).
Qed.

Definition staircase : list (list point) :=
  [[(0, 0); (100, 0)]; [(3, 3); (3, 80); (4, 81)]; [(1, 1); (2, 2)]].

Lemma unify_close_points_output_witness :
  unify_close_points staircase (384, 512) 0.0078125
  = Ok [[(2, 2); (100, 0)]; [(2, 2); (4, 81)]]
  ∧ let merge_distance := merge_distance (384, 512) 0.0078125 in
    (length [[(2, 2); (100, 0)]; [(2, 2); (4, 81)]] ≤ length staircase)%nat
    ∧ Forall (λ u : list point,
        (2 ≤ length u)%nat
        ∧ (merge_distance * 2 <=? total_length u)%float = true
        ∧ ∀ i p q, u !! i = Some p → u !! S i = Some q →
            (merge_distance * 0.5 <=? euclid q p)%float = true)
        [[(2, 2); (100, 0)]; [(2, 2); (4, 81)]].
Proof.
  assert (unify_close_points staircase (384, 512) 0.0078125
          = Ok [[(2, 2); (100, 0)]; [(2, 2); (4, 81)]]) as H
    by (vm_compute; reflexivity).
  split; [exact H|].
  exact (unify_close_points_output staircase (384, 512) 0.0078125 _ H).
Defined.

(** X11: A result on which the clustering step finds no cluster any more is a
    fixed point: unifying it again, with the same image shape and the same
    percentage, returns it unchanged. *)
Theorem unify_close_points_stable (contours : list (list point))
    (image_shape : Z * Z) (merge_distance_percent : float)
    (out : list (list point)) :
  unify_close_points contours image_shape merge_distance_percent = Ok out →
  snd <$> find_clusters out
            (merge_distance image_shape merge_distance_percent) = Ok [] →
  unify_close_points out image_shape merge_distance_percent = Ok out.
Proof.
  intros Hout Hclusters. apply unify_close_points_inv in Hout as [Hall _].
  unfold unify_close_points. case_bool_decide; [done|]. cbv zeta.
  destruct (find_clusters _ _) as [[all_points clusters]|]; [|done].
  cbn in Hclusters. injection Hclusters as ->.
  cbn [mbind result_bind centroid_loop].
  by rewrite unify_contours_fixed.
Qed.

Definition doubled_start : list (list point) :=
  [[(0, 0); (5, 0); (100, 0)]; [(0, 50); (100, 50)]].

Lemma unify_close_points_stable_witness :
  unify_close_points doubled_start (384, 512) 0.0078125
  = Ok [[(2, 0); (100, 0)]; [(0, 50); (100, 50)]]
  ∧ snd <$> find_clusters [[(2, 0); (100, 0)]; [(0, 50); (100, 50)]]
              (merge_distance (384, 512) 0.0078125) = Ok []
  ∧ unify_close_points [[(2, 0); (100, 0)]; [(0, 50); (100, 50)]]
      (384, 512) 0.0078125
    = Ok [[(2, 0); (100, 0)]; [(0, 50); (100, 50)]].
Proof.
  assert (unify_close_points doubled_start (384, 512) 0.0078125
          = Ok [[(2, 0); (100, 0)]; [(0, 50); (100, 50)]]) as H
    by (vm_compute; reflexivity).
  assert (snd <$> find_clusters [[(2, 0); (100, 0)]; [(0, 50); (100, 50)]]
                    (merge_distance (384, 512) 0.0078125) = Ok []) as Hc
    by (vm_compute; reflexivity).
  split; [exact H|]. split; [exact Hc|].
  exact (unify_close_points_stable doubled_start (384, 512) 0.0078125 _ H Hc).
Defined.

(** X12: With a merge distance of zero the grid has cells of size zero, and the
    first vertex to be indexed raises [ZeroDivisionError]. *)
Theorem unify_close_points_zero_distance (contours : list (list point))
    (image_shape : Z * Z) (merge_distance_percent : float) :
  (merge_distance image_shape merge_distance_percent * 2 =? 0)%float = true →
  Exists (λ c, c ≠ []) contours →
  unify_close_points contours image_shape merge_distance_percent
  = Raise ZeroDivisionError.
Proof.
  intros Hzero Hex. unfold unify_close_points.
  rewrite bool_decide_eq_false_2 by (intros ->; by apply Exists_nil in Hex).
  cbv zeta. unfold find_clusters.
  by rewrite index_contours_zero_grid.
Qed.

Definition sheet : Z * Z := (384, 512).

Lemma unify_close_points_zero_distance_witness :
  (merge_distance sheet 0 * 2 =? 0)%float = true
  ∧ Exists (λ c : list point, c ≠ []) [[]; [(0, 0); (100, 0)]]
  ∧ unify_close_points [[]; [(0, 0); (100, 0)]] sheet 0
    = Raise ZeroDivisionError.
Proof.
  assert (Exists (λ c : list point, c ≠ []) [[]; [(0, 0); (100, 0)]]) as Hex
    by (right; by left).
  split; [reflexivity|]. split; [exact Hex|].
  exact (unify_close_points_zero_distance _ sheet 0 eq_refl Hex).
Defined.

(** A vertex absorbed by the seed [seed] of index [seed_idx]. *)
Definition absorbed (merge_distance : float) (all_points : list point_data)
    (seed_idx : nat) (seed : point_data) (m : nat) : Prop :=
  m ≠ seed_idx
  ∧ ∃ pd, all_points !! m = Some pd
      ∧ (euclid (coords seed) (coords pd) <=? merge_distance)%float = true.

Lemma scan_candidates_absorbed md all_points seed_idx seed cands :
  ∀ st members, st.1 = seed_idx :: members →
    Forall (absorbed md all_points seed_idx seed) members →
    ∃ members',
      (foldl (scan_candidate md all_points seed_idx seed) st cands).1
      = seed_idx :: members'
      ∧ Forall (absorbed md all_points seed_idx seed) members'.
Proof.
  induction cands as [|c cands IH]; intros st members Hst Hall;
    [by exists members|].
  cbn [foldl]. unfold scan_candidate at 2.
  destruct (all_points !! c) as [candidate|] eqn:Hc; [|by eapply IH].
  destruct (bool_decide (c ∈ st.2)); [by eapply IH|].
  case_bool_decide as Hself; cbn [orb]; [by eapply IH|].
  destruct (_ <=? _)%float eqn:Hnear; [|by eapply IH].
  eapply (IH _ (members ++ [c])); cbn [fst]; [by rewrite Hst|].
  apply Forall_app. split; [done|]. apply Forall_singleton.
  split; [done|]. by exists candidate.
Qed.

(** What every recorded cluster is: a seed followed by at least one vertex,
    each of them another vertex within the merge distance of the seed. *)
Definition seeded (merge_distance : float) (all_points : list point_data)
    (cluster : list nat) : Prop :=
  ∃ seed_idx seed members,
    cluster = seed_idx :: members ∧ members ≠ []
    ∧ all_points !! seed_idx = Some seed
    ∧ Forall (absorbed merge_distance all_points seed_idx seed) members.

Lemma cluster_loop_seeded md all_points index point_idx todo clusters merged :
  (∀ k pd, todo !! k = Some pd → all_points !! (point_idx + k)%nat = Some pd) →
  Forall (seeded md all_points) clusters →
  Forall (seeded md all_points)
    (cluster_loop md all_points index point_idx todo clusters merged).
Proof.
  revert point_idx clusters merged.
  induction todo as [|seed rest IH]; intros pidx clusters merged Halign Hall;
    [done|].
  assert (∀ k pd, rest !! k = Some pd → all_points !! (S pidx + k)%nat = Some pd)
    as Halign'.
  { intros k pd Hk. replace (S pidx + k)%nat with (pidx + S k)%nat by lia.
    by apply Halign. }
  cbn [cluster_loop]. case_bool_decide; [by apply IH|]. cbv zeta.
  apply IH; [done|].
  destruct (scan_candidates_absorbed md all_points pidx seed
              (candidates index (grid_key seed))
              ([pidx], {[pidx]} ∪ merged) [] eq_refl (Forall_nil_2 _))
    as (members & Hcl & Hmem).
  rewrite Hcl. case_bool_decide as Hlen; [|done].
  apply Forall_app. split; [done|]. apply Forall_singleton.
  exists pidx, seed, members. split; [done|].
  split; [intros ->; simpl in Hlen; lia|].
  split; [|done]. specialize (Halign 0%nat seed eq_refl).
  by rewrite Nat.add_0_r in Halign.
Qed.

(** The entries of [all_points] are the vertices of the contours, each with
    the indices of its place. *)
Definition placed (contours : list (list point)) (pd : point_data) : Prop :=
  ∃ contour, contours !! contour_idx pd = Some contour
    ∧ contour !! point_idx pd = Some (coords pd).

Lemma index_contour_placed contours grid_size ci pi contour all_points index r :
  (∀ k p, contour !! k = Some p →
     ∃ c, contours !! ci = Some c ∧ c !! (pi + k)%nat = Some p) →
  Forall (placed contours) all_points →
  index_contour grid_size ci pi contour all_points index = Ok r →
  Forall (placed contours) r.1.
Proof.
  revert pi all_points index.
  induction contour as [|p rest IH]; intros pi all_points index Hin Hall Hr.
  { by injection Hr as <-. }
  cbn [index_contour] in Hr.
  destruct (grid_coordinate p.1 grid_size) as [gx|]; [|done].
  destruct (grid_coordinate p.2 grid_size) as [gy|]; [|done].
  cbn [mbind result_bind] in Hr. eapply IH; [| |exact Hr].
  - intros k q Hk. replace (S pi + k)%nat with (pi + S k)%nat by lia.
    by apply Hin.
  - apply Forall_app. split; [done|]. apply Forall_singleton.
    destruct (Hin 0%nat p eq_refl) as (c & Hc & Hp).
    rewrite Nat.add_0_r in Hp. by exists c.
Qed.

Lemma index_contours_placed (all : list (list point)) grid_size ci contours
    all_points index r :
  (∀ k c, contours !! k = Some c → all !! (ci + k)%nat = Some c) →
  Forall (placed all) all_points →
  index_contours grid_size ci contours all_points index = Ok r →
  Forall (placed all) r.1.
Proof.
  revert ci all_points index.
  induction contours as [|c rest IH]; intros ci all_points index Hin Hall Hr.
  { by injection Hr as <-. }
  cbn [index_contours] in Hr.
  destruct (index_contour _ _ _ _ _ _) as [[ap si]|] eqn:Hc; [|done].
  cbn [mbind result_bind] in Hr. eapply IH; [| |exact Hr].
  - intros k c' Hk. replace (S ci + k)%nat with (ci + S k)%nat by lia.
    by apply Hin.
  - eapply (index_contour_placed all _ _ _ _ _ _ (ap, si)); [|done|exact Hc].
    intros k p Hk. exists c. split; [|done].
    specialize (Hin 0%nat c eq_refl). by rewrite Nat.add_0_r in Hin.
Qed.

(** X13: Every entry of [all_points] is a vertex of the contours, and every
    recorded cluster is a seed with at least one other vertex, all of them
    within the merge distance of the seed. *)
Theorem find_clusters_within_distance (contours : list (list point))
    (merge_distance : float) (all_points : list point_data)
    (clusters : list (list nat)) :
  find_clusters contours merge_distance = Ok (all_points, clusters) →
  Forall (λ pd, ∃ contour, contours !! contour_idx pd = Some contour
                  ∧ contour !! point_idx pd = Some (coords pd)) all_points
  ∧ Forall (λ cluster,
      ∃ seed_idx seed members,
        cluster = seed_idx :: members ∧ members ≠ []
        ∧ all_points !! seed_idx = Some seed
        ∧ Forall (λ m, m ≠ seed_idx
            ∧ ∃ pd, all_points !! m = Some pd
                ∧ (euclid (coords seed) (coords pd) <=? merge_distance)%float
                  = true) members) clusters.
Proof.
  unfold find_clusters. cbv zeta.
  destruct (index_contours _ _ _ _ _) as [[ap si]|] eqn:Hidx; [|done].
  cbn [mbind result_bind]. intros [= <- <-]. split.
  - eapply (index_contours_placed contours _ _ _ _ _ (ap, si));
      [|constructor|exact Hidx]. by intros k c Hk.
  - apply cluster_loop_seeded; [by intros k pd Hk|constructor].
Qed.

Definition near_start : list (list point) :=
  [[(0, 0); (5, 0); (7, 0); (100, 0)]].

Definition near_start_points : list point_data :=
  [PointData (0, 0) 0 0 (0, 0); PointData (5, 0) 0 1 (0, 0);
   PointData (7, 0) 0 2 (0, 0); PointData (100, 0) 0 3 (10, 0)].

Lemma find_clusters_within_distance_witness :
  find_clusters near_start 5 = Ok (near_start_points, [[0; 1]%nat])
  ∧ Forall (λ pd, ∃ contour, near_start !! contour_idx pd = Some contour
                    ∧ contour !! point_idx pd = Some (coords pd))
      near_start_points
  ∧ Forall (λ cluster,
      ∃ seed_idx seed members,
        cluster = seed_idx :: members ∧ members ≠ []
        ∧ near_start_points !! seed_idx = Some seed
        ∧ Forall (λ m, m ≠ seed_idx
            ∧ ∃ pd, near_start_points !! m = Some pd
                ∧ (euclid (coords seed) (coords pd) <=? 5)%float = true)
            members) [[0; 1]%nat].
Proof.
  assert (find_clusters near_start 5 = Ok (near_start_points, [[0; 1]%nat]))
    as H by (vm_compute; reflexivity).
  split; [exact H|].
  exact (find_clusters_within_distance near_start 5 _ _ H).
Defined.

End UnifierFacts.

(** *** What the simplifier returns, for every [epsilon] *)

Module SimplifierResults.
Import Num Simplifier SimplifierFacts.

Lemma removelast_sublist (r1 : list point) (l : list point) (x : point) :
  r1 `sublist_of` l ++ [x] → last r1 = Some x →
  removelast r1 `sublist_of` l.
Proof.
  intros Hsub Hlast. apply last_Some in Hlast as [r ->].
  rewrite removelast_last. by apply sublist_app_inv_r in Hsub.
Qed.

Lemma end_points_sublist (points : list point) :
  (2 ≤ length points)%nat →
  [points !!! 0%nat; points !!! (length points - 1)%nat] `sublist_of` points.
Proof.
  intros Hlen. destruct points as [|a points]; [simpl in *; lia|].
  change ((a :: points) !!! 0%nat) with a. apply sublist_skip.
  apply sublist_cons_l.
  assert (last points
          = Some ((a :: points) !!! (length (a :: points) - 1)%nat)) as Hlast.
  { rewrite lookup_total_last by (simpl; lia).
    destruct points; [simpl in *; lia|done]. }
  apply last_Some in Hlast as [l' Hl'].
  exists l', []. split; [done|]. apply sublist_nil_l.
Qed.

(** A result, at whatever depth it is reached, is a subsequence of the
    points and keeps both end points. *)
Lemma rdp_ok_spec epsilon :
  ∀ fuel points r, rdp fuel points epsilon = Ok r →
    r `sublist_of` points ∧ head r = head points ∧ last r = last points
    ∧ (2 ≤ length points → 2 ≤ length r)%nat.
Proof.
  induction fuel as [|fuel IH]; intros points r Hr.
  { simpl in Hr. case_bool_decide; [|done]. by injection Hr as <-. }
  rewrite rdp_unfold in Hr. case_bool_decide as Hshort.
  { by injection Hr as <-. }
  cbv zeta in Hr.
  destruct (farthest_point_cases (interior points) (points !!! 0%nat)
      (points !!! (length points - 1)%nat) 1 0 0%float)
    as [Hfar|(k & p & Hk & Hfar)]; rewrite Hfar in Hr; cbn [fst snd] in Hr.
  - (* the search found nothing beyond its starting values *)
    destruct (epsilon <? 0)%float.
    + rewrite drop_0 in Hr.
      destruct (rdp fuel (take (0 + 1) points) epsilon) as [r1|] eqn:H1; [|done].
      destruct (rdp fuel points epsilon) as [r2|] eqn:H2; [|done].
      cbn in Hr. injection Hr as <-.
      destruct (IH _ _ H1) as (Hs1 & Hh1 & Hl1 & _).
      destruct (IH _ _ H2) as (Hs2 & Hh2 & Hl2 & Hn2).
      assert (length r1 ≤ 1)%nat as Hr1.
      { apply sublist_length in Hs1. rewrite length_take in Hs1. lia. }
      destruct r1 as [|a [|b r1]]; simpl in Hr1; try lia; done.
    + injection Hr as <-. split; [apply end_points_sublist; lia|].
      simpl. rewrite lookup_total_first, lookup_total_last by lia.
      split; [done|]. split; [done|]. lia.
  - apply lookup_lt_Some in Hk. rewrite interior_length in Hk.
    destruct (epsilon <? _)%float.
    + destruct (rdp fuel (take _ _) _) as [r1|] eqn:H1; [|done].
      destruct (rdp fuel (drop _ _) _) as [r2|] eqn:H2; [|done].
      cbn in Hr. injection Hr as <-.
      destruct (IH _ _ H1) as (Hs1 & Hh1 & Hl1 & Hn1).
      destruct (IH _ _ H2) as (Hs2 & Hh2 & Hl2 & Hn2).
      rewrite length_take in Hn1. rewrite length_drop in Hn2.
      replace (1 + k + 1)%nat with (S (S k)) in * by lia.
      rewrite last_take_S in Hl1 by lia.
      destruct (lookup_lt_is_Some_2 points (S k)) as [x Hx]; [lia|].
      rewrite (take_S_r _ _ _ Hx) in Hs1. rewrite Hx in Hl1.
      split; [|split; [|split]].
      * rewrite <- (take_drop (S k) points) at 1.
        apply sublist_app; [by eapply removelast_sublist|done].
      * rewrite head_removelast_app by lia.
        rewrite Hh1. apply head_take. lia.
      * rewrite last_app_nonempty by lia. rewrite Hl2. apply last_drop. lia.
      * intros _. rewrite length_app, length_removelast. lia.
    + injection Hr as <-. split; [apply end_points_sublist; lia|].
      simpl. rewrite lookup_total_first, lookup_total_last by lia.
      split; [done|]. split; [done|]. lia.
Qed.

Lemma simplify_contours_ok_spec epsilon :
  ∀ contours out, simplify_contours contours epsilon = Ok out →
    (length out ≤ length contours)%nat
    ∧ Forall (λ s, (2 ≤ length s)%nat
         ∧ ∃ c, c ∈ contours ∧ s `sublist_of` c
             ∧ head s = head c ∧ last s = last c) out.
Proof.
  induction contours as [|c rest IH]; intros out Hout.
  { injection Hout as <-. split; [done|constructor]. }
  cbn [simplify_contours] in Hout. case_bool_decide as Hc.
  - unfold ramer_douglas_peucker in Hout.
    destruct (rdp _ c epsilon) as [s|] eqn:Hs; [|done].
    destruct (simplify_contours rest epsilon) as [out'|]; [|done].
    cbn in Hout. injection Hout as <-.
    destruct (IH _ eq_refl) as [Hlen Hall].
    destruct (rdp_ok_spec _ _ _ _ Hs) as (Hsub & Hh & Hl & Hn).
    assert (Forall (λ s, (2 ≤ length s)%nat
         ∧ ∃ c0, c0 ∈ c :: rest ∧ s `sublist_of` c0
             ∧ head s = head c0 ∧ last s = last c0) out') as Hall'.
    { eapply Forall_impl; [exact Hall|].
      intros s' (? & c' & ? & ?). split; [done|]. exists c'.
      split; [by right|done]. }
    case_bool_decide; cbn [length]; (split; [lia|]); [|done].
    constructor; [|done]. split; [done|]. exists c. split; [by left|done].
  - destruct (IH _ Hout) as [Hlen Hall]. split; [simpl; lia|].
    eapply Forall_impl; [exact Hall|].
    intros s' (? & c' & ? & ?). split; [done|]. exists c'.
    split; [by right|done].
Qed.

(** X1: Whenever [ramer_douglas_peucker] returns, whatever the [epsilon], its
    result is a subsequence of the input points: it contains no new point,
    none twice that was there once, and the order is kept; and it starts
    and ends with the first and the last input point. *)
Theorem rdp_returns_subsequence (points r : list point) (epsilon : float) :
  ramer_douglas_peucker points epsilon = Ok r →
  r `sublist_of` points ∧ head r = head points ∧ last r = last points.
Proof.
  intros Hr. destruct (rdp_ok_spec _ _ _ _ Hr) as (? & ? & ? & _). done.
Qed.

Definition ridge : list point :=
  [(0, 0); (1, 1); (2, 0); (3, 5); (4, 0); (5, 0)].

Lemma rdp_returns_subsequence_witness :
  ramer_douglas_peucker ridge 2 = Ok [(0, 0); (3, 5); (5, 0)]
  ∧ [(0, 0); (3, 5); (5, 0)] `sublist_of` ridge
  ∧ head [(0, 0); (3, 5); (5, 0)] = head ridge
  ∧ last [(0, 0); (3, 5); (5, 0)] = last ridge.
Proof.
  assert (ramer_douglas_peucker ridge 2 = Ok [(0, 0); (3, 5); (5, 0)]) as H
    by (vm_compute; reflexivity).
  split; [exact H|]. exact (rdp_returns_subsequence ridge _ 2 H).
Defined.

(** X2: Whenever [simplify_contours] returns, whatever the [epsilon], it returns
    no more contours than it was given, and each of them has at least two
    points and is a subsequence of one of the input contours, with that
    contour's first and last point. *)
Theorem simplify_contours_returns_subsequences
    (contours out : list (list point)) (epsilon : float) :
  simplify_contours contours epsilon = Ok out →
  (length out ≤ length contours)%nat
  ∧ Forall (λ s, (2 ≤ length s)%nat
       ∧ ∃ c, c ∈ contours ∧ s `sublist_of` c
           ∧ head s = head c ∧ last s = last c) out.
Proof. apply simplify_contours_ok_spec. Qed.

Definition mixed : list (list point) := [ridge; [(9, 9)]; []].
Definition mixed_simplified : list (list point) := [[(0, 0); (3, 5); (5, 0)]].

Lemma simplify_contours_returns_subsequences_witness :
  simplify_contours mixed 2 = Ok mixed_simplified
  ∧ (length mixed_simplified ≤ length mixed)%nat
  ∧ Forall (λ s : list point, (2 ≤ length s)%nat
       ∧ ∃ c, c ∈ mixed ∧ s `sublist_of` c
           ∧ head s = head c ∧ last s = last c) mixed_simplified.
Proof.
  assert (simplify_contours mixed 2 = Ok mixed_simplified) as H
    by (vm_compute; reflexivity).
  split; [exact H|].
  exact (simplify_contours_returns_subsequences _ _ 2 H).
Defined.

Lemma farthest_point_stays pts p0 pend i index :
  Forall (λ p, (0 <? distance_point_to_line p p0 pend)%float = false) pts →
  farthest_point pts p0 pend i index 0%float = (index, 0%float).
Proof.
  intros Hall. revert i. induction Hall as [|p rest Hp _ IH]; intros i; [done|].
  cbn [farthest_point]. cbv zeta. rewrite Hp. apply IH.
Qed.

(** X3: With a negative [epsilon], a sequence of three or more points none of
    whose interior points is at a positive distance from the segment between
    its end points is never simplified: the recursion calls itself on the
    same points until [RecursionError]. *)
Theorem rdp_negative_epsilon_flat_span (points : list point) (epsilon : float) :
  (3 ≤ length points)%nat →
  (epsilon <? 0)%float = true →
  Forall (λ d, (0 <? d)%float = false) (deviations points) →
  ramer_douglas_peucker points epsilon = Raise RecursionError.
Proof.
  intros Hlen Heps Hflat. unfold deviations in Hflat.
  apply Forall_fmap in Hflat.
  pose proof (farthest_point_stays _ _ _ 1%nat 0%nat Hflat) as Hfar.
  apply rdp_self_call; [lia|by rewrite Hfar..].
Qed.

Definition back_and_forth : list point := [(0, 0); (4, 0); (2, 0); (9, 0)].

Lemma rdp_negative_epsilon_flat_span_witness :
  (3 ≤ length back_and_forth)%nat
  ∧ (-0.5 <? 0)%float = true
  ∧ Forall (λ d, (0 <? d)%float = false) (deviations back_and_forth)
  ∧ ramer_douglas_peucker back_and_forth (-0.5) = Raise RecursionError.
Proof.
  assert (3 ≤ length back_and_forth)%nat as Hlen by (simpl; lia).
  assert (Forall (λ d, (0 <? d)%float = false) (deviations back_and_forth))
    as Hflat.
  { apply (bool_decide_unpack _). by vm_compute. }
  split; [exact Hlen|]. split; [reflexivity|]. split; [exact Hflat|].
  exact (rdp_negative_epsilon_flat_span _ (-0.5) Hlen eq_refl Hflat).
Defined.

End SimplifierResults.

(** *** The tolerance of the simplifier *)

Module SimplifierTolerance.
Import Num Simplifier SimplifierFacts FloatOrder.

(** [approximates epsilon points r]: [r] is [points] with runs of points left
    out, each run between two kept points [a] and [b], and no point of the
    run at a distance from the segment [a b] that compares above
    [epsilon]. *)
Inductive approximates (epsilon : float) : list point → list point → Prop :=
  | approximates_nil : approximates epsilon [] []
  | approximates_one p : approximates epsilon [p] [p]
  | approximates_run a run b rest r :
      Forall (λ p, (epsilon <? distance_point_to_line p a b)%float = false)
        run →
      approximates epsilon (b :: rest) r →
      approximates epsilon (a :: run ++ b :: rest) (a :: r).

Lemma approximates_head epsilon points r :
  approximates epsilon points r → head r = head points.
Proof. by destruct 1. Qed.

Lemma approximates_join epsilon front m back r1 r2 :
  approximates epsilon (front ++ [m]) r1 →
  approximates epsilon (m :: back) r2 →
  approximates epsilon (front ++ m :: back) (removelast r1 ++ r2).
Proof.
  intros H1 H2. remember (front ++ [m]) as l eqn:Hl. revert front Hl.
  induction H1 as [|p|a run b rest r Hrun Hr IH]; intros front Hl.
  - by destruct front.
  - destruct front as [|q [|q' front]]; simplify_eq/=. done.
  - destruct front as [|a' front]; simpl in Hl.
    { destruct run; discriminate. }
    injection Hl as <- Hl.
    pose proof (approximates_head _ _ _ Hr) as Hhead.
    destruct r as [|b' r]; [done|]. injection Hhead as ->.
    destruct (decide (rest = [])) as [->|Hne].
    + (* the run ends at the joint *)
      apply (app_inj_2 run front [b] [m]) in Hl as [-> [= ->]]; [|done].
      inversion Hr as [|p Hp|? run' ? ? ? _ _ Hrun']; subst;
        [|by destruct run'].
      simpl. by constructor.
    + destruct (exists_last Hne) as (rest' & z & ->).
      change (b :: rest' ++ [z]) with ((b :: rest') ++ [z]) in Hl.
      rewrite app_assoc in Hl.
      apply (app_inj_2 _ front [z] [m]) in Hl as [<- [= ->]]; [|done].
      specialize (IH (b :: rest') eq_refl).
      destruct r as [|c r].
      * inversion Hr as [|p Hp|? run' ? ? ? _ Hr' Hrun']; subst.
        { by destruct rest'. }
        inversion Hr'.
      * change (removelast (a :: b :: c :: r))
          with (a :: removelast (b :: c :: r)).
        cbn [app]. rewrite <- app_assoc. cbn [app].
        apply approximates_run; [done|]. exact IH.
Qed.

(** The maximum found by the search loop is a number that no visited distance
    exceeds. *)
Lemma farthest_point_max pts p0 pend i index dmax :
  number dmax →
  number (farthest_point pts p0 pend i index dmax).2
  ∧ Forall (λ p, ((farthest_point pts p0 pend i index dmax).2
                  <? distance_point_to_line p p0 pend)%float = false) pts.
Proof.
  revert i index dmax.
  assert (∀ pts i index dmax, number dmax →
    number (farthest_point pts p0 pend i index dmax).2
    ∧ ((farthest_point pts p0 pend i index dmax).2 <? dmax)%float = false
    ∧ Forall (λ p, ((farthest_point pts p0 pend i index dmax).2
                    <? distance_point_to_line p p0 pend)%float = false) pts)
    as Hgen.
  { clear pts. induction pts as [|p rest IH]; intros i index dmax Hnum.
    - cbn [farthest_point snd]. split; [done|].
      split; [apply ltb_irrefl|constructor].
    - cbn [farthest_point]. cbv zeta.
      destruct (dmax <? distance_point_to_line p p0 pend)%float eqn:Hcmp.
      + destruct (IH (S i) i (distance_point_to_line p p0 pend))
          as (Hn & Hge & Hall); [by eapply ltb_number|].
        split; [done|]. split; [|by constructor].
        destruct (_ <? dmax)%float eqn:Hlt; [|done].
        by rewrite (ltb_trans _ _ _ Hlt Hcmp) in Hge.
      + destruct (IH (S i) index dmax) as (Hn & Hge & Hall); [done|].
        split; [done|]. split; [done|]. constructor; [|done].
        by apply (ltb_between _ dmax). }
  intros i index dmax Hnum.
  destruct (Hgen pts i index dmax Hnum) as (? & _ & ?). done.
Qed.

(** A sequence of two or more points: its first point, the points visited by
    the search loop, and its last point. *)
Lemma interior_split (points : list point) :
  (2 ≤ length points)%nat →
  points = points !!! 0%nat :: interior points
           ++ [points !!! (length points - 1)%nat].
Proof.
  intros Hlen. unfold interior.
  destruct points as [|a rest]; [simpl in Hlen; lia|].
  assert (rest ≠ []) as Hne by (intros ->; simpl in Hlen; lia).
  destruct (exists_last Hne) as (rest' & z & ->).
  cbn [drop length]. rewrite length_app. cbn [length].
  replace (S (length rest' + 1) - 2)%nat with (length rest') by lia.
  replace (S (length rest' + 1) - 1)%nat with (S (length rest')) by lia.
  rewrite drop_0, take_app_length.
  by rewrite (list_lookup_total_middle (a :: rest') [] z (S (length rest'))).
Qed.

Lemma zero_number : number 0%float.
Proof. unfold number. by vm_compute. Qed.

Lemma rdp_approximates epsilon fuel :
  ∀ points r, rdp fuel points epsilon = Ok r → approximates epsilon points r.
Proof.
  induction fuel as [|fuel IH]; intros points r.
  { simpl. case_bool_decide as Hshort; [|done]. intros [= <-].
    destruct points as [|a [|b [|c rest]]]; simpl in Hshort; try lia;
      try constructor.
    apply (approximates_run _ a [] b []); constructor. }
  rewrite rdp_unfold. case_bool_decide as Hshort.
  { intros [= <-].
    destruct points as [|a [|b [|c rest]]]; simpl in Hshort; try lia;
      try constructor.
    apply (approximates_run _ a [] b []); constructor. }
  cbv zeta.
  set (p0 := points !!! 0%nat). set (pend := points !!! (length points - 1)%nat).
  destruct (farthest_point_max (interior points) p0 pend 1 0 0%float zero_number)
    as [Hnum Hmax].
  destruct (epsilon <? _)%float eqn:Hcmp.
  - destruct (rdp fuel (take _ _) epsilon) as [r1|] eqn:H1; [|done].
    cbn [mbind result_bind].
    destruct (rdp fuel (drop _ _) epsilon) as [r2|] eqn:H2; [|done].
    cbn [mbind result_bind]. intros [= <-].
    set (index := (farthest_point (interior points) p0 pend 1 0 0%float).1)
      in *.
    assert (index < length points)%nat as Hindex.
    { subst index.
      destruct (farthest_point_cases (interior points) p0 pend 1 0 0%float)
        as [->|(k & p & Hk & ->)]; cbn [fst]; [lia|].
      apply lookup_lt_Some in Hk. rewrite interior_length in Hk. lia. }
    destruct (lookup_lt_is_Some_2 points index Hindex) as [m Hm].
    apply IH in H1, H2.
    rewrite Nat.add_1_r, (take_S_r _ _ _ Hm) in H1.
    rewrite (drop_S _ _ _ Hm) in H2.
    rewrite <- (take_drop index points) at 1. rewrite (drop_S _ _ _ Hm).
    by apply approximates_join.
  - intros [= <-].
    assert (points = p0 :: interior points ++ [pend]) as Hpts
      by (apply interior_split; lia).
    rewrite Hpts at 1.
    apply approximates_run; [|constructor].
    eapply Forall_impl; [exact Hmax|]. intros p Hp. cbv beta in Hp.
    by apply (ltb_between _ _ _ Hnum).
Qed.

(** X25: Every point that [ramer_douglas_peucker] leaves out lies between two
    kept points, and its distance from the segment between these two, as
    [distance_point_to_line] computes it, does not compare above
    [epsilon]. *)
Theorem rdp_within_epsilon (points r : list point) (epsilon : float) :
  ramer_douglas_peucker points epsilon = Ok r →
  approximates epsilon points r.
Proof. apply rdp_approximates. Qed.

Lemma rdp_within_epsilon_witness :
  ramer_douglas_peucker SimplifierResults.ridge 2 = Ok [(0, 0); (3, 5); (5, 0)]
  ∧ approximates 2 SimplifierResults.ridge [(0, 0); (3, 5); (5, 0)].
Proof.
  assert (ramer_douglas_peucker SimplifierResults.ridge 2
          = Ok [(0, 0); (3, 5); (5, 0)]) as H by (vm_compute; reflexivity).
  split; [exact H|].
  exact (rdp_within_epsilon SimplifierResults.ridge _ 2 H).
Defined.

End SimplifierTolerance.

(** ** Sublot validation: [calculate_polygon_angles] and [is_valid_sublot] *)

Module Sublot.
Import Num Simplifier.

(** [np.clip] on a scalar: a NaN passes through. *)
Definition clip (x lo hi : float) : float :=
  if (x <? lo)%float then lo else if (hi <? x)%float then hi else x.

Section Library.

(** The library functions [cv2.contourArea], [np.arccos] and
    [math.degrees]. *)
Variable cv_contourArea : list point → float.
Variable np_arccos : float → float.
Variable math_degrees : float → float.

(** The angle at [p2] between its neighbours [p1] and [p3].  The two
    difference vectors are [int64] arrays, and so is their dot product. *)
Definition polygon_angle (p1 p2 p3 : point) : float :=
  let v1 := (p1.1 - p2.1, p1.2 - p2.2) in
  let v2 := (p3.1 - p2.1, p3.2 - p2.2) in
  let cos_angle :=
    (float_of_int (wrap64 (v1.1 * v2.1 + v1.2 * v2.2))
     / (norm (as_float v1) * norm (as_float v2)))%float in
  let cos_angle := clip cos_angle (-1) 1 in
  math_degrees (np_arccos cos_angle).

(** [polygon[i-1]] is the last vertex for [i = 0]. *)
Definition calculate_polygon_angles (polygon : list point) : list float :=
  if bool_decide (length polygon < 3)%nat then []
  else
    let n := length polygon in
    (λ i, polygon_angle (polygon !!! ((i + n - 1) mod n)%nat)
            (polygon !!! i)
            (polygon !!! ((i + 1) mod n)%nat)) <$> seq 0 n.

(** [cfg] is a dictionary of numbers. *)
Definition is_valid_sublot (polygon : list point) (cfg : gmap string float)
    : bool :=
  if bool_decide (length polygon < 3)%nat
     || bool_decide (7 < length polygon)%nat
  then false
  else
    let area := cv_contourArea polygon in
    let min_sublot_area := default 500%float (cfg !! "min_sublot_area") in
    if (area <? min_sublot_area)%float then false
    else
      let min_angle := default 40%float (cfg !! "min_angle") in
      let angles := calculate_polygon_angles polygon in
      if existsb (λ angle, (angle <? min_angle)%float) angles then false
      else true.

End Library.
End Sublot.

(** *** Properties of the sublot validation *)

Module SublotFacts.
Import Num Simplifier Sublot.

Section Library.

Variable cv_contourArea : list point → float.
Variable np_arccos : float → float.
Variable math_degrees : float → float.

Local Abbreviation angles :=
  (calculate_polygon_angles np_arccos math_degrees).
Local Abbreviation valid :=
  (is_valid_sublot cv_contourArea np_arccos math_degrees).

Lemma rotate_nat_add_mod (k i n : nat) :
  rotate_nat_add k i n = ((k + i) mod n)%nat.
Proof.
  unfold rotate_nat_add. rewrite <- Nat2Z.inj_add.
  by rewrite <- Nat2Z.inj_mod, Nat2Z.id.
Qed.

Lemma lookup_total_rotate (l : list point) (k i : nat) :
  (i < length l)%nat →
  rotate k l !!! i = l !!! ((k + i) mod length l)%nat.
Proof.
  intros Hi. apply list_lookup_total_correct.
  rewrite lookup_rotate_r, rotate_nat_add_mod by done.
  apply list_lookup_lookup_total_lt, Nat.mod_upper_bound. lia.
Qed.

Lemma calculate_polygon_angles_length polygon :
  length (angles polygon)
  = if bool_decide (length polygon < 3)%nat then 0%nat else length polygon.
Proof.
  unfold calculate_polygon_angles. case_bool_decide; [done|].
  by rewrite length_fmap, length_seq.
Qed.

Lemma calculate_polygon_angles_rotate_eq polygon k :
  angles (rotate k polygon) = rotate k (angles polygon).
Proof.
  apply list_eq. intros i.
  destruct (decide (length polygon < 3)%nat) as [Hshort|Hlong].
  { unfold calculate_polygon_angles.
    rewrite length_rotate, !bool_decide_eq_true_2 by done.
    unfold rotate. by rewrite drop_nil, take_nil. }
  destruct (decide (i < length polygon)%nat) as [Hi|Hi].
  2:{ rewrite !lookup_ge_None_2; [done|..];
        rewrite ?length_rotate, calculate_polygon_angles_length,
          ?length_rotate, bool_decide_eq_false_2 by done; lia. }
  set (n := length polygon) in *.
  assert (length (angles polygon) = n) as Hlen.
  { rewrite calculate_polygon_angles_length.
    by rewrite bool_decide_eq_false_2. }
  rewrite lookup_rotate_r, rotate_nat_add_mod, Hlen by lia.
  unfold calculate_polygon_angles.
  rewrite length_rotate, bool_decide_eq_false_2 by done. cbv zeta. fold n.
  assert ((k + i) mod n < n)%nat as Hmod by (apply Nat.mod_upper_bound; lia).
  rewrite !list_lookup_fmap, !lookup_seq_lt by done. cbn [fmap option_fmap option_map Nat.add].
  f_equal.
  rewrite !lookup_total_rotate by (fold n; try apply Nat.mod_upper_bound; lia).
  fold n. f_equal; f_equal.
  - rewrite Nat.Div0.add_mod_idemp_r.
    replace ((k + i) mod n + n - 1)%nat with ((k + i) mod n + (n - 1))%nat by lia.
    rewrite Nat.Div0.add_mod_idemp_l. f_equal. lia.
  - rewrite Nat.Div0.add_mod_idemp_r, Nat.Div0.add_mod_idemp_l. f_equal. lia.
Qed.

Lemma existsb_rotate {A} (f : A → bool) (l : list A) (k : nat) :
  existsb f (rotate k l) = existsb f l.
Proof.
  unfold rotate. rewrite existsb_app, orb_comm, <- existsb_app.
  by rewrite take_drop.
Qed.

(** X14: One angle per vertex, and the angles of a rotated vertex list are the
    rotated angles: the angle at a vertex does not depend on where the list
    starts. *)
Theorem calculate_polygon_angles_rotate (polygon : list point) (k : nat) :
  length (angles polygon)
  = (if bool_decide (length polygon < 3)%nat then 0%nat else length polygon)
  ∧ angles (rotate k polygon) = rotate k (angles polygon).
Proof.
  split; [apply calculate_polygon_angles_length|].
  apply calculate_polygon_angles_rotate_eq.
Qed.

(** X15: A polygon is accepted exactly when it has 3 to 7 vertices, its area does
    not compare below [min_sublot_area] (500 when the key is missing) and
    none of its angles compares below [min_angle] (40.0 when the key is
    missing). *)
Theorem is_valid_sublot_accepts (polygon : list point)
    (cfg : gmap string float) :
  valid polygon cfg = true
  ↔ (3 ≤ length polygon ≤ 7)%nat
    ∧ (cv_contourArea polygon
       <? default 500%float (cfg !! "min_sublot_area"))%float = false
    ∧ Forall (λ angle,
        (angle <? default 40%float (cfg !! "min_angle"))%float = false)
        (angles polygon).
Proof.
  unfold is_valid_sublot. cbv zeta.
  destruct (bool_decide (length polygon < 3)%nat) eqn:H3.
  { apply bool_decide_eq_true in H3. split; [done|lia]. }
  destruct (bool_decide (7 < length polygon)%nat) eqn:H7.
  { apply bool_decide_eq_true in H7. split; [done|lia]. }
  apply bool_decide_eq_false in H3, H7. cbn [orb].
  destruct (_ <? _)%float eqn:Harea.
  { split; [done|]. by intros (_ & ? & _). }
  destruct (existsb _ _) eqn:Hex.
  - split; [done|]. intros (_ & _ & Hall).
    apply existsb_exists in Hex as (a & Ha & Hlt).
    apply list_elem_of_In in Ha.
    rewrite (proj1 (Forall_forall _ _) Hall a Ha) in Hlt. done.
  - split; [|done]. intros _. split; [lia|]. split; [done|].
    apply Forall_forall. intros a Ha. apply list_elem_of_In in Ha.
    destruct (a <? _)%float eqn:Hlt; [|done].
    assert (existsb (λ angle,
              (angle <? default 40%float (cfg !! "min_angle"))%float)
              (angles polygon) = true) as Hex'
      by (apply existsb_exists; eauto).
    congruence.
Qed.

End Library.
End SublotFacts.

(** ** The pipeline: [classify_contours] and [procesar_imagen] *)

Module Pipeline.
Import Num Scale Simplifier Unifier Merger Sublot.

(** A row [[Next, Previous, First_Child, Parent]] of the hierarchy. *)
Definition hierarchy_row : Type := Z * Z * Z * Z.

Definition parent (row : hierarchy_row) : Z := row.2.

(** The dictionary that [procesar_imagen] returns. *)
Record extraction : Type := Extraction {
  bordes_externos : list (list point);
  sublotes : list (list point);
  vectores : list (list point);
}.

(** The uploaded file: its name and what [read()] returns. *)
Record upload : Type := Upload {
  name : string;
  contenido : list Byte.byte;
}.

(** [cfg[key]] *)
Definition cfg_item (cfg : gmap string float) (key : string) : result float :=
  match cfg !! key with
  | Some v => Ok v
  | None => Raise KeyError
  end.

(** [s.lower()] on the ASCII letters; no other character becomes one of the
    characters of [".pdf"] when lowered. *)
Definition lower_ascii (c : Ascii.ascii) : Ascii.ascii :=
  let n := Ascii.nat_of_ascii c in
  if bool_decide (65 ≤ n ≤ 90)%nat then Ascii.ascii_of_nat (n + 32) else c.

Fixpoint lower (s : string) : string :=
  match s with
  | String.EmptyString => String.EmptyString
  | String.String c rest => String.String (lower_ascii c) (lower rest)
  end.

Definition endswith (s suffix : string) : bool :=
  let n := String.length s in
  let m := String.length suffix in
  bool_decide (m ≤ n)%nat
  && String.eqb (String.substring (n - m) m s) suffix.

(** The doubles that Python reads for the literals [0.005] and [0.8]. *)
Definition half_percent : float := 0x1.47ae147ae147bp-8%float.
Definition four_fifths : float := 0x1.999999999999ap-1%float.

Section Library.

(** The library functions of the sublot validation. *)
Variable cv_contourArea : list point → float.
Variable np_arccos : float → float.
Variable math_degrees : float → float.

(** The images, and the library calls that decode and preprocess them:
    [pdf2image.convert_from_bytes(contenido, dpi=600, first_page=1,
    last_page=1)]; [Image.open(io.BytesIO(contenido))]; [convert('RGB')],
    [np.array] and [cv2.cvtColor(RGB2BGR)]; [shape[:2]];
    [cv2.cvtColor(BGR2GRAY)]; [cv2.GaussianBlur]; CLAHE; [cv2.Canny];
    the morphological closing; [cv2.findContours]. *)
Variable pil_image : Type.
Variable raster : Type.
Variable convert_from_bytes : list Byte.byte → result (list pil_image).
Variable image_open : list Byte.byte → result pil_image.
Variable to_bgr : pil_image → result raster.
Variable image_shape : raster → Z * Z.
Variable to_gray : raster → result raster.
Variable gaussian_blur : raster → float → result raster.
Variable clahe_apply : raster → result raster.
Variable canny : raster → float → float → result raster.
Variable morph_close : raster → float → result raster.
Variable find_contours :
  raster → result (list (list point) * option (list hierarchy_row)).

(** The loop of [classify_contours], from contour [i] on; [hierarchy] is
    [hierarchy[0]].  A contour of at least three points squeezes to a
    two-dimensional array, so the test on [ndim] always passes. *)
Fixpoint classify_loop (i : nat) (contours : list (list point))
    (hierarchy : list hierarchy_row) (cfg : gmap string float)
    (external_contours internal_contours : list (list point))
    : result (list (list point) * list (list point)) :=
  match contours with
  | [] => Ok (external_contours, internal_contours)
  | contour :: rest =>
      if bool_decide (3 ≤ length contour)%nat then
        match hierarchy !! i with
        | None => Raise IndexError
        | Some row =>
            if bool_decide (parent row = -1) then
              classify_loop (S i) rest hierarchy cfg
                (external_contours ++ [contour]) internal_contours
            else if is_valid_sublot cv_contourArea np_arccos math_degrees
                      contour cfg then
              classify_loop (S i) rest hierarchy cfg
                external_contours (internal_contours ++ [contour])
            else
              classify_loop (S i) rest hierarchy cfg
                external_contours internal_contours
        end
      else
        classify_loop (S i) rest hierarchy cfg
          external_contours internal_contours
  end.

(** The pair is [(bordes_externos, sublotes)]. *)
Definition classify_contours (contours : list (list point))
    (hierarchy : list hierarchy_row) (cfg : gmap string float)
    : result (list (list point) * list (list point)) :=
  classify_loop 0 contours hierarchy cfg [] [].

(** The loop that filters the contours by area, from contour [i] on;
    [hierarchy] is [None] or [hierarchy[0]]. *)
Fixpoint filter_loop (i : nat) (contours : list (list point))
    (hierarchy : option (list hierarchy_row)) (cfg : gmap string float)
    (filtered_contours : list (list point))
    (filtered_hierarchy : list hierarchy_row)
    : result (list (list point) * list hierarchy_row) :=
  match contours with
  | [] => Ok (filtered_contours, filtered_hierarchy)
  | contour :: rest =>
      let area := cv_contourArea contour in
      min_contour_area ← cfg_item cfg "min_contour_area";
      if (min_contour_area <? area)%float then
        match hierarchy with
        | None =>
            filter_loop (S i) rest hierarchy cfg
              (filtered_contours ++ [contour]) filtered_hierarchy
        | Some rows =>
            match rows !! i with
            | None => Raise IndexError
            | Some row =>
                filter_loop (S i) rest hierarchy cfg
                  (filtered_contours ++ [contour]) (filtered_hierarchy ++ [row])
            end
        end
      else
        filter_loop (S i) rest hierarchy cfg
          filtered_contours filtered_hierarchy
  end.

Definition filter_by_area (contours : list (list point))
    (hierarchy : option (list hierarchy_row)) (cfg : gmap string float)
    : result (list (list point) * list hierarchy_row) :=
  filter_loop 0 contours hierarchy cfg [] [].

(** The decoding step. *)
Definition decode (archivo : upload) : result raster :=
  if endswith (lower (name archivo)) ".pdf" then
    pages ← convert_from_bytes (contenido archivo);
    img_pil ← match pages with
               | [] => Raise IndexError
               | page :: _ => Ok page
               end;
    to_bgr img_pil
  else
    img_pil ← image_open (contenido archivo);
    to_bgr img_pil.

(** Everything after the classification. *)
Definition vectorize (classified : list (list point) * list (list point))
    (shape : Z * Z) (cfg : gmap string float) : result extraction :=
  let epsilon := default 2%float (cfg !! "epsilon") in
  let merge_distance_percent :=
    default half_percent (cfg !! "merge_distance_percent") in
  unified_borders ←
    unify_close_points classified.1 shape merge_distance_percent;
  let border_merge_percent :=
    default half_percent (cfg !! "border_merge_percent") in
  let merged_borders :=
    merge_nearby_endpoints unified_borders shape border_merge_percent in
  unified_sublots ←
    unify_close_points classified.2 shape
      (merge_distance_percent * four_fifths)%float;
  bordes ← simplify_contours merged_borders epsilon;
  sublots ← simplify_contours unified_sublots epsilon;
  Ok (Extraction bordes sublots (bordes ++ sublots)).

Definition procesar_imagen (archivo : upload) (cfg : gmap string float)
    : result extraction :=
  img_np ← decode archivo;
  gray ← to_gray img_np;
  blur ← cfg_item cfg "blur";
  blurred ← gaussian_blur gray blur;
  contrast ← clahe_apply blurred;
  canny_low ← cfg_item cfg "canny_low";
  canny_high ← cfg_item cfg "canny_high";
  edges ← canny contrast canny_low canny_high;
  morph_kernel ← cfg_item cfg "morph_kernel";
  edges_morph ← morph_close edges morph_kernel;
  '(contours, hierarchy) ← find_contours edges_morph;
  '(filtered_contours, filtered_hierarchy) ←
    filter_by_area contours hierarchy cfg;
  classified_contours ←
    classify_contours filtered_contours filtered_hierarchy cfg;
  vectorize classified_contours (image_shape img_np) cfg.

(** *** The view [ProcesarPlanoAPIView] *)

Definition CFG : gmap string float :=
  {[ "blur" := 3%float; "canny_low" := 50%float; "canny_high" := 150%float;
     "morph_kernel" := 2%float; "min_contour_area" := 1000%float;
     "epsilon" := 2%float; "min_sublot_area" := 500%float;
     "min_angle" := 40%float ]}.

(** The data of a response; [detalle] stands for [str(e)]. *)
Inductive body : Type :=
  | ErrorBody (error : string) (detalle : option exn)
  | ResultBody (vectores bordes_externos sublotes : list (list point))
      (total_vectores total_bordes_externos total_sublotes : nat).

Record response : Type := Response {
  status : nat;
  data : body;
}.

(** [request.FILES.get('archivo')] is [None] or an uploaded file, which is
    false when its name is empty. *)
Definition post (archivo : option upload) : response :=
  match archivo with
  | None => Response 400 (ErrorBody "Archivo requerido" None)
  | Some archivo =>
      if bool_decide (name archivo = "") then
        Response 400 (ErrorBody "Archivo requerido" None)
      else
        match procesar_imagen archivo CFG with
        | Ok resultado =>
            Response 200
              (ResultBody (vectores resultado) (bordes_externos resultado)
                 (sublotes resultado)
                 (length (vectores resultado))
                 (length (bordes_externos resultado))
                 (length (sublotes resultado)))
        | Raise e =>
            Response 500 (ErrorBody "Error al procesar la imagen" (Some e))
        end
  end.

End Library.
End Pipeline.

(** *** Properties of the pipeline *)

Module PipelineFacts.
Import Num FloatOrder Scale Simplifier Unifier Merger Sublot Pipeline.

Lemma bind_Ok {A B} (m : result A) (f : A → result B) (b : B) :
  m ≫= f = Ok b → ∃ a, m = Ok a ∧ f a = Ok b.
Proof. destruct m as [a|e]; [|done]. intros H. by exists a. Qed.

Section Library.

Variable cv_contourArea : list point → float.
Variable np_arccos : float → float.
Variable math_degrees : float → float.

Local Abbreviation angles :=
  (calculate_polygon_angles np_arccos math_degrees).
Local Abbreviation valid :=
  (is_valid_sublot cv_contourArea np_arccos math_degrees).
Local Abbreviation classify :=
  (classify_contours cv_contourArea np_arccos math_degrees).
Local Abbreviation classify_from :=
  (classify_loop cv_contourArea np_arccos math_degrees).

(** A contour with its row of the hierarchy goes to the external borders. *)
Definition external (cr : list point * hierarchy_row) : Prop :=
  (3 ≤ length cr.1)%nat ∧ parent cr.2 = -1.

(** A contour with its row of the hierarchy goes to the sublots. *)
Definition internal (cfg : gmap string float)
    (cr : list point * hierarchy_row) : Prop :=
  (3 ≤ length cr.1)%nat ∧ parent cr.2 ≠ -1 ∧ valid cr.1 cfg = true.

Lemma classify_loop_spec cfg hierarchy contours :
  ∀ i ext int, (i + length contours ≤ length hierarchy)%nat →
    classify_from i contours hierarchy cfg ext int
    = Ok (ext ++ (filter external (zip contours (drop i hierarchy))).*1,
          int ++ (filter (internal cfg) (zip contours (drop i hierarchy))).*1).
Proof.
  induction contours as [|c rest IH]; intros i ext int Hlen.
  { simpl. by rewrite !app_nil_r. }
  simpl in Hlen.
  destruct (lookup_lt_is_Some_2 hierarchy i) as [row Hrow]; [lia|].
  rewrite (drop_S _ _ _ Hrow). cbn [zip zip_with classify_loop].
  rewrite !filter_cons. rewrite Hrow.
  destruct (decide (external (c, row))) as [[H3 Hp]|Hext];
    destruct (decide (internal cfg (c, row))) as [(H3' & Hp' & Hv)|Hint];
    cbn [fst snd] in *.
  - done.
  - rewrite !bool_decide_eq_true_2 by done. rewrite IH by lia.
    cbn [fmap list_fmap fst]. by rewrite <- app_assoc.
  - rewrite bool_decide_eq_true_2, bool_decide_eq_false_2, Hv by done.
    rewrite IH by lia. cbn [fmap list_fmap fst]. by rewrite <- app_assoc.
  - case_bool_decide as H3; [|by rewrite IH by lia].
    case_bool_decide as Hp; [by destruct Hext|].
    destruct (valid c cfg) eqn:Hv; [by destruct Hint|].
    by rewrite IH by lia.
Qed.

Lemma classify_loop_short cfg hierarchy contours :
  ∀ i ext int k c, contours !! k = Some c → (3 ≤ length c)%nat →
    (length hierarchy ≤ i + k)%nat →
    classify_from i contours hierarchy cfg ext int = Raise IndexError.
Proof.
  induction contours as [|c0 rest IH]; intros i ext int k c Hk Hc Hshort;
    [done|].
  cbn [classify_loop]. destruct k as [|k].
  - injection Hk as ->. rewrite bool_decide_eq_true_2 by done.
    rewrite lookup_ge_None_2 by lia. done.
  - assert (∀ e n, classify_from (S i) rest hierarchy cfg e n
                   = Raise IndexError) as Hrest.
    { intros e n. eapply (IH _ _ _ k c); [done|done|lia]. }
    case_bool_decide; [|apply Hrest].
    destruct (hierarchy !! i) as [row|]; [|done].
    case_bool_decide; [apply Hrest|].
    destruct (valid c0 cfg); apply Hrest.
Qed.

Local Abbreviation filter_from := (filter_loop cv_contourArea).

(** A contour that passes the area filter. *)
Definition large (min_contour_area : float) (contour : list point) : Prop :=
  (min_contour_area <? cv_contourArea contour)%float = true.

#[export] Instance large_dec min_contour_area contour :
  Decision (large min_contour_area contour).
Proof. unfold large. apply _. Defined.

Lemma filter_loop_rows cfg min_contour_area rows contours :
  cfg !! "min_contour_area" = Some min_contour_area →
  ∀ i fc fh, (i + length contours ≤ length rows)%nat →
    filter_from i contours (Some rows) cfg fc fh
    = Ok (fc ++ (filter (λ cr, large min_contour_area cr.1)
                   (zip contours (drop i rows))).*1,
          fh ++ (filter (λ cr, large min_contour_area cr.1)
                   (zip contours (drop i rows))).*2).
Proof.
  intros Hkey. induction contours as [|c rest IH]; intros i fc fh Hlen.
  { simpl. by rewrite !app_nil_r. }
  simpl in Hlen.
  destruct (lookup_lt_is_Some_2 rows i) as [row Hrow]; [lia|].
  rewrite (drop_S _ _ _ Hrow). cbn [zip zip_with filter_loop].
  unfold cfg_item. rewrite Hkey. cbn [mbind result_bind].
  rewrite !filter_cons. cbn [fst].
  destruct (decide (large min_contour_area c)) as [Hl|Hl].
  - unfold large in Hl. rewrite Hl, Hrow. rewrite IH by lia.
    cbn [fmap list_fmap fst snd]. by rewrite <- !app_assoc.
  - apply not_true_is_false in Hl. rewrite Hl. by rewrite IH by lia.
Qed.

Lemma filter_loop_no_rows cfg min_contour_area contours :
  cfg !! "min_contour_area" = Some min_contour_area →
  ∀ i fc fh,
    filter_from i contours None cfg fc fh
    = Ok (fc ++ filter (large min_contour_area) contours, fh).
Proof.
  intros Hkey. induction contours as [|c rest IH]; intros i fc fh.
  { simpl. by rewrite !app_nil_r. }
  cbn [filter_loop]. unfold cfg_item. rewrite Hkey. cbn [mbind result_bind].
  rewrite filter_cons.
  destruct (decide (large min_contour_area c)) as [Hl|Hl].
  - unfold large in Hl. rewrite Hl, IH. by rewrite <- app_assoc.
  - apply not_true_is_false in Hl. by rewrite Hl, IH.
Qed.

Lemma filter_loop_kept cfg min_contour_area hierarchy contours :
  cfg !! "min_contour_area" = Some min_contour_area →
  ∀ i fc fh r,
    filter_from i contours hierarchy cfg fc fh = Ok r →
    ∃ kept, r.1 = fc ++ kept
      ∧ Forall (λ c, c ∈ contours ∧ large min_contour_area c) kept.
Proof.
  intros Hkey. induction contours as [|c rest IH]; intros i fc fh r Hr.
  { injection Hr as <-. exists []. by rewrite app_nil_r. }
  cbn [filter_loop] in Hr. unfold cfg_item in Hr. rewrite Hkey in Hr.
  cbn [mbind result_bind] in Hr.
  assert (∀ kept, Forall (λ c, c ∈ rest ∧ large min_contour_area c) kept →
            Forall (λ c0, c0 ∈ c :: rest ∧ large min_contour_area c0) kept)
    as Hmore.
  { intros kept Hkept. eapply Forall_impl; [exact Hkept|].
    intros c0 [? ?]. split; [by right|done]. }
  destruct (min_contour_area <? cv_contourArea c)%float eqn:Hl.
  - assert (∃ fh', filter_from (S i) rest hierarchy cfg (fc ++ [c]) fh' = Ok r)
      as [fh' Hr'].
    { destruct hierarchy as [rows|]; [|by eexists].
      destruct (rows !! i); [by eexists|done]. }
    destruct (IH _ _ _ _ Hr') as (kept & -> & Hall).
    exists (c :: kept). rewrite <- app_assoc. split; [done|].
    constructor; [split; [by left|done]|by apply Hmore].
  - destruct (IH _ _ _ _ Hr) as (kept & -> & Hall).
    exists kept. split; [done|by apply Hmore].
Qed.

(** X16: With one row of the hierarchy per contour, the classification raises
    nothing; the external borders are the contours of at least three points
    whose row has no parent, the sublots the contours of at least three
    points whose row has a parent and that [is_valid_sublot] accepts, both
    in the order of the contours. *)
Theorem classify_contours_lockstep (contours : list (list point))
    (hierarchy : list hierarchy_row) (cfg : gmap string float) :
  (length contours ≤ length hierarchy)%nat →
  classify contours hierarchy cfg
  = Ok ((filter external (zip contours hierarchy)).*1,
        (filter (internal cfg) (zip contours hierarchy)).*1).
Proof.
  intros Hlen. unfold classify_contours.
  by rewrite classify_loop_spec by (simpl; lia).
Qed.

(** X17: A contour of at least three points for which the hierarchy has no row
    makes the classification raise [IndexError]. *)
Theorem classify_contours_missing_row (contours : list (list point))
    (hierarchy : list hierarchy_row) (cfg : gmap string float)
    (k : nat) (c : list point) :
  contours !! k = Some c → (3 ≤ length c)%nat →
  (length hierarchy ≤ k)%nat →
  classify contours hierarchy cfg = Raise IndexError.
Proof.
  intros Hk Hc Hshort. unfold classify_contours.
  eapply classify_loop_short; [done|done|lia].
Qed.

(** X18: With one row of the hierarchy per contour, the area filter keeps exactly
    the contours whose area is strictly greater than
    [cfg["min_contour_area"]], each with its own row, in order. *)
Theorem filter_by_area_lockstep (contours : list (list point))
    (rows : list hierarchy_row) (cfg : gmap string float)
    (min_contour_area : float) :
  cfg !! "min_contour_area" = Some min_contour_area →
  (length contours ≤ length rows)%nat →
  let kept := filter (λ cr, large min_contour_area cr.1) (zip contours rows) in
  filter_by_area cv_contourArea contours (Some rows) cfg
  = Ok (kept.*1, kept.*2).
Proof.
  intros Hkey Hlen. unfold filter_by_area.
  by rewrite (filter_loop_rows _ min_contour_area) by (done || simpl; lia).
Qed.

(** X19: Every contour that passes the area filter is an input contour whose
    area is greater than the minimum and different from it: an area equal
    to [cfg["min_contour_area"]] does not pass. *)
Theorem filter_by_area_strict (contours : list (list point))
    (hierarchy : option (list hierarchy_row)) (cfg : gmap string float)
    (min_contour_area : float)
    (r : list (list point) * list hierarchy_row) :
  cfg !! "min_contour_area" = Some min_contour_area →
  filter_by_area cv_contourArea contours hierarchy cfg = Ok r →
  Forall (λ c, c ∈ contours
               ∧ (min_contour_area <? cv_contourArea c)%float = true
               ∧ cv_contourArea c ≠ min_contour_area) r.1.
Proof.
  intros Hkey Hr. unfold filter_by_area in Hr.
  destruct (filter_loop_kept _ _ _ _ Hkey _ _ _ _ Hr) as (kept & -> & Hall).
  eapply Forall_impl; [exact Hall|]. intros c [Hc Hl].
  split; [done|]. split; [done|]. intros Heq. unfold large in Hl.
  by rewrite Heq, ltb_irrefl in Hl.
Qed.

(** X20: Without the key [min_contour_area] the filter raises [KeyError] at the
    first contour; with no contour at all the key is not looked up. *)
Theorem filter_by_area_missing_key (contours : list (list point))
    (hierarchy : option (list hierarchy_row)) (cfg : gmap string float) :
  cfg !! "min_contour_area" = None →
  filter_by_area cv_contourArea contours hierarchy cfg
  = if bool_decide (contours = []) then Ok ([], []) else Raise KeyError.
Proof.
  intros Hkey. unfold filter_by_area. destruct contours as [|c rest]; [done|].
  cbn [filter_loop]. unfold cfg_item. by rewrite Hkey.
Qed.

(** X21: After the area filter the hierarchy is still in step with the contours,
    so the classification of what the filter returns raises nothing. *)
Theorem classify_after_filter (contours : list (list point))
    (rows : list hierarchy_row) (cfg : gmap string float)
    (min_contour_area : float) :
  cfg !! "min_contour_area" = Some min_contour_area →
  (length contours ≤ length rows)%nat →
  ∃ filtered_contours filtered_hierarchy classified,
    filter_by_area cv_contourArea contours (Some rows) cfg
    = Ok (filtered_contours, filtered_hierarchy)
    ∧ length filtered_hierarchy = length filtered_contours
    ∧ classify filtered_contours filtered_hierarchy cfg = Ok classified.
Proof.
  intros Hkey Hlen. unfold filter_by_area.
  rewrite (filter_loop_rows _ min_contour_area) by (done || simpl; lia).
  rewrite drop_0. cbn [app].
  set (kept := filter _ _).
  exists (kept.*1), (kept.*2). eexists. split; [done|].
  split; [by rewrite !length_fmap|].
  unfold classify_contours.
  by rewrite classify_loop_spec by (rewrite !length_fmap; simpl; lia).
Qed.

(** X26: A contour that passed the area filter passes the area test of
    [is_valid_sublot] whenever [min_sublot_area] is at most
    [min_contour_area]: what is left of the validation is the number of
    vertices and the angles. *)
Theorem is_valid_sublot_after_filter (polygon : list point)
    (cfg : gmap string float) (min_contour_area : float) :
  (default 500%float (cfg !! "min_sublot_area") <=? min_contour_area)%float
  = true →
  large min_contour_area polygon →
  valid polygon cfg
  = bool_decide (3 ≤ length polygon ≤ 7)%nat
    && forallb (λ angle,
         negb (angle <? default 40%float (cfg !! "min_angle"))%float)
         (angles polygon).
Proof.
  intros Hmin Hlarge. unfold is_valid_sublot, large in *. cbv zeta.
  destruct (bool_decide (length polygon < 3)%nat) eqn:H3.
  { apply bool_decide_eq_true in H3.
    rewrite (bool_decide_eq_false_2 (3 ≤ _ ≤ 7)%nat) by lia. done. }
  destruct (bool_decide (7 < length polygon)%nat) eqn:H7.
  { apply bool_decide_eq_true in H7.
    rewrite (bool_decide_eq_false_2 (3 ≤ _ ≤ 7)%nat) by lia. done. }
  apply bool_decide_eq_false in H3, H7. cbn [orb].
  rewrite bool_decide_eq_true_2 by lia. cbn [andb].
  destruct (cv_contourArea polygon <? _)%float eqn:Harea.
  { pose proof (ltb_trans _ _ _ Hlarge
                  (ltb_leb_trans _ _ _ Harea Hmin)) as Habs.
    by rewrite ltb_irrefl in Habs. }
  induction (angles polygon) as [|angle rest IH]; [done|].
  cbn [existsb forallb]. rewrite <- IH.
  by destruct (angle <? _)%float, (existsb _ rest).
Qed.

Lemma filter_loop_length cfg hierarchy contours :
  ∀ i fc fh r, filter_from i contours hierarchy cfg fc fh = Ok r →
    (length r.1 ≤ length fc + length contours)%nat.
Proof.
  induction contours as [|c rest IH]; intros i fc fh r Hr.
  { injection Hr as <-. simpl. lia. }
  cbn [filter_loop] in Hr. unfold cfg_item in Hr.
  destruct (cfg !! "min_contour_area") as [m|]; [|done].
  cbn [mbind result_bind] in Hr. cbn [length].
  destruct (m <? cv_contourArea c)%float.
  - assert (∃ fh', filter_from (S i) rest hierarchy cfg (fc ++ [c]) fh' = Ok r)
      as [fh' Hr'].
    { destruct hierarchy as [rows|]; [|by eexists].
      destruct (rows !! i); [by eexists|done]. }
    apply IH in Hr'. rewrite length_app in Hr'. simpl in Hr'. lia.
  - apply IH in Hr. lia.
Qed.

Lemma classify_loop_length cfg hierarchy contours :
  ∀ i ext int r, classify_from i contours hierarchy cfg ext int = Ok r →
    (length r.1 + length r.2 ≤ length ext + length int + length contours)%nat.
Proof.
  induction contours as [|c rest IH]; intros i ext int r Hr.
  { injection Hr as <-. simpl. lia. }
  cbn [classify_loop] in Hr. cbn [length].
  case_bool_decide; [|apply IH in Hr; lia].
  destruct (hierarchy !! i) as [row|]; [|done].
  case_bool_decide.
  { apply IH in Hr. rewrite length_app in Hr. simpl in Hr. lia. }
  destruct (valid c cfg).
  - apply IH in Hr. rewrite length_app in Hr. simpl in Hr. lia.
  - apply IH in Hr. lia.
Qed.

Lemma merge_nearby_endpoints_length contours shape pct :
  (length (merge_nearby_endpoints contours shape pct) ≤ length contours)%nat.
Proof.
  unfold merge_nearby_endpoints. case_bool_decide; [done|]. cbv zeta.
  set (md := merge_distance _ _).
  pose proof (MergerFacts.foldl_apply_merge_well_merged contours md _
    (MergerFacts.sorted_merge_pairs_join contours md) _
    (MergerFacts.well_merged_initial contours)) as (Hlen & _).
  rewrite <- Hlen. apply MergerFacts.compact_length.
Qed.

Lemma vectorize_length classified shape cfg r :
  vectorize classified shape cfg = Ok r →
  (length (bordes_externos r) ≤ length classified.1)%nat
  ∧ (length (sublotes r) ≤ length classified.2)%nat.
Proof.
  unfold vectorize. cbv zeta. intros H.
  apply bind_Ok in H as (unified_borders & Hub & H).
  apply bind_Ok in H as (unified_sublots & Hus & H).
  apply bind_Ok in H as (bordes & Hbordes & H).
  apply bind_Ok in H as (sublots & Hsublots & H).
  assert (r = Extraction bordes sublots (bordes ++ sublots)) as ->
    by congruence.
  cbn [bordes_externos sublotes].
  apply UnifierFacts.unify_close_points_inv in Hub as [_ Hub].
  apply UnifierFacts.unify_close_points_inv in Hus as [_ Hus].
  apply SimplifierResults.simplify_contours_ok_spec in Hbordes as [Hb _].
  apply SimplifierResults.simplify_contours_ok_spec in Hsublots as [Hs _].
  pose proof (merge_nearby_endpoints_length unified_borders shape
                (default half_percent (cfg !! "border_merge_percent"))).
  lia.
Qed.

Variable pil_image : Type.
Variable raster : Type.
Variable convert_from_bytes : list Byte.byte → result (list pil_image).
Variable image_open : list Byte.byte → result pil_image.
Variable to_bgr : pil_image → result raster.
Variable image_shape : raster → Z * Z.
Variable to_gray : raster → result raster.
Variable gaussian_blur : raster → float → result raster.
Variable clahe_apply : raster → result raster.
Variable canny : raster → float → float → result raster.
Variable morph_close : raster → float → result raster.
Variable find_contours :
  raster → result (list (list point) * option (list hierarchy_row)).

Local Abbreviation decode_upload :=
  (decode pil_image raster convert_from_bytes image_open to_bgr).
Local Abbreviation process :=
  (procesar_imagen cv_contourArea np_arccos math_degrees pil_image raster
     convert_from_bytes image_open to_bgr image_shape to_gray gaussian_blur
     clahe_apply canny morph_close find_contours).
Local Abbreviation view :=
  (post cv_contourArea np_arccos math_degrees pil_image raster
     convert_from_bytes image_open to_bgr image_shape to_gray gaussian_blur
     clahe_apply canny morph_close find_contours).

Ltac unbind H :=
  apply bind_Ok in H as (? & _ & H);
  try match type of H with
      | context [let '(_, _) := ?x in _] => destruct x
      end.

Lemma vectorize_spec classified shape cfg r :
  vectorize classified shape cfg = Ok r →
  vectores r = bordes_externos r ++ sublotes r
  ∧ Forall (λ c, 2 ≤ length c)%nat (vectores r).
Proof.
  unfold vectorize. cbv zeta. intros H.
  apply bind_Ok in H as (unified_borders & _ & H).
  apply bind_Ok in H as (unified_sublots & _ & H).
  apply bind_Ok in H as (bordes & Hbordes & H).
  apply bind_Ok in H as (sublots & Hsublots & H).
  assert (r = Extraction bordes sublots (bordes ++ sublots)) as ->
    by congruence.
  cbn [vectores bordes_externos sublotes]. split; [done|].
  apply Forall_app. split.
  - destruct (SimplifierResults.simplify_contours_ok_spec _ _ _ Hbordes)
      as [_ Hall].
    eapply Forall_impl; [exact Hall|]. intros c [Hc _]. exact Hc.
  - destruct (SimplifierResults.simplify_contours_ok_spec _ _ _ Hsublots)
      as [_ Hall].
    eapply Forall_impl; [exact Hall|]. intros c [Hc _]. exact Hc.
Qed.

Lemma procesar_imagen_spec archivo cfg r :
  process archivo cfg = Ok r →
  vectores r = bordes_externos r ++ sublotes r
  ∧ Forall (λ c, 2 ≤ length c)%nat (vectores r).
Proof.
  unfold procesar_imagen. intros H. do 13 unbind H.
  by eapply vectorize_spec.
Qed.

(** X22: A result of [procesar_imagen] lists in [vectores] the external borders
    followed by the sublots, and every polygon of it has at least two
    points. *)
Theorem procesar_imagen_result (archivo : upload) (cfg : gmap string float)
    (r : extraction) :
  process archivo cfg = Ok r →
  vectores r = bordes_externos r ++ sublotes r
  ∧ Forall (λ c, 2 ≤ length c)%nat (vectores r).
Proof. apply procesar_imagen_spec. Qed.

(** X23: A file named [*.pdf], in whatever letter case, whose conversion yields
    no page makes the decoding raise [IndexError]; whatever the decoding
    raises, [procesar_imagen] raises, and the view answers 500 with that
    exception and no result. *)
Theorem decode_failure (archivo : upload) (cfg : gmap string float) (e : exn) :
  name archivo ≠ "" →
  decode_upload archivo = Raise e →
  process archivo cfg = Raise e
  ∧ view (Some archivo)
    = Response 500 (ErrorBody "Error al procesar la imagen" (Some e))
  ∧ (endswith (lower (name archivo)) ".pdf" = true →
     convert_from_bytes (contenido archivo) = Ok [] → e = IndexError).
Proof.
  intros Hname Hdec.
  assert (∀ cfg', process archivo cfg' = Raise e) as Hproc.
  { intros cfg'. unfold procesar_imagen. by rewrite Hdec. }
  split; [done|]. split.
  - unfold post. rewrite bool_decide_eq_false_2 by done. by rewrite Hproc.
  - intros Hpdf Hpages. unfold decode in Hdec. rewrite Hpdf, Hpages in Hdec.
    cbn in Hdec. congruence.
Qed.

(** X24: The view answers 400 exactly when there is no file or its name is
    empty, 200 exactly when [procesar_imagen] returns and 500 exactly when it
    raises, with the exception as detail; a 200 answer carries the three
    lists of the result, its totals are their lengths, and the first list is
    the two others one after the other. *)
Theorem post_answers (archivo : option upload) :
  (status (view archivo) = 400%nat
   ↔ archivo = None ∨ ∃ a, archivo = Some a ∧ name a = "")
  ∧ (status (view archivo) = 200%nat
     ↔ ∃ a r, archivo = Some a ∧ name a ≠ "" ∧ process a CFG = Ok r)
  ∧ (status (view archivo) = 500%nat
     ↔ ∃ a e, archivo = Some a ∧ name a ≠ "" ∧ process a CFG = Raise e)
  ∧ match data (view archivo) with
    | ResultBody v b s total_v total_b total_s =>
        status (view archivo) = 200%nat
        ∧ (∃ a r, archivo = Some a ∧ process a CFG = Ok r
             ∧ v = vectores r ∧ b = bordes_externos r ∧ s = sublotes r)
        ∧ v = b ++ s
        ∧ total_v = length v ∧ total_b = length b ∧ total_s = length s
        ∧ total_v = (total_b + total_s)%nat
        ∧ Forall (λ c, 2 ≤ length c)%nat v
    | ErrorBody error detalle =>
        (status (view archivo) = 400%nat
         ∧ error = "Archivo requerido" ∧ detalle = None)
        ∨ (status (view archivo) = 500%nat
           ∧ error = "Error al procesar la imagen"
           ∧ ∃ a e, archivo = Some a ∧ process a CFG = Raise e
               ∧ detalle = Some e)
    end.
Proof.
  destruct archivo as [a|]; cbn [post].
  2:{ cbn [status data]. split; [split; [by left|done]|].
      split; [split; [done|by intros (? & ? & ? & _)]|].
      split; [split; [done|by intros (? & ? & ? & _)]|]. by left. }
  case_bool_decide as Hname.
  { cbn [status data]. split; [split; [|done]; intros _; right; by exists a|].
    split; [split; [done|]; intros (a' & r & [= <-] & Hne & _); done|].
    split; [split; [done|]; intros (a' & e & [= <-] & Hne & _); done|].
    by left. }
  assert (¬ (Some a = None ∨ ∃ a', Some a = Some a' ∧ name a' = "")) as Hfile.
  { intros [?|(a' & [= <-] & ?)]; done. }
  destruct (process a CFG) as [r|e] eqn:Hr; cbn [status data].
  - split; [split; [done|by intros ?%Hfile]|].
    split; [split; [|done]; intros _; by exists a, r|].
    split; [split; [done|]; intros (a' & e & [= <-] & _ & He); congruence|].
    destruct (procesar_imagen_spec _ _ _ Hr) as [Hv Hall].
    split; [done|]. split; [by exists a, r|]. split; [done|].
    do 3 (split; [done|]).
    split; [by rewrite Hv, length_app|done].
  - split; [split; [done|by intros ?%Hfile]|].
    split; [split; [done|]; intros (a' & r & [= <-] & _ & He); congruence|].
    split; [split; [|done]; intros _; by exists a, e|].
    right. split; [done|]. split; [done|]. by exists a, e.
Qed.

(** X27: A result of [procesar_imagen] comes from one call of [cv2.findContours],
    and has no more polygons than that call found contours: no step of the
    pipeline adds a polygon. *)
Theorem procesar_imagen_bounded (archivo : upload) (cfg : gmap string float)
    (r : extraction) :
  process archivo cfg = Ok r →
  ∃ edges contours hierarchy,
    find_contours edges = Ok (contours, hierarchy)
    ∧ (length (bordes_externos r) + length (sublotes r) ≤ length contours)%nat
    ∧ (length (vectores r) ≤ length contours)%nat.
Proof.
  intros H.
  destruct (procesar_imagen_spec _ _ _ H) as [Hv _].
  unfold procesar_imagen in H.
  do 10 (apply bind_Ok in H as (? & _ & H)).
  apply bind_Ok in H as ([contours hierarchy] & Hfound & H).
  apply bind_Ok in H as ([filtered_contours filtered_hierarchy] & Hfilter & H).
  apply bind_Ok in H as (classified & Hclass & H).
  eexists _, contours, hierarchy. split; [exact Hfound|].
  apply filter_loop_length in Hfilter. apply classify_loop_length in Hclass.
  pose proof (vectorize_length _ _ _ _ H) as [Hb Hs].
  cbn [fst snd length] in *. rewrite Hv, length_app. lia.
Qed.

End Library.
End PipelineFacts.

(** *** Examples: the theorems of the pipeline at concrete inputs *)

Module PipelineExamples.
Import Num Scale Simplifier Unifier Merger Sublot Pipeline PipelineFacts.

(** The area of a polygon by the Green formula, accumulated in doubles over
    the consecutive vertices: what [cv2.contourArea] computes for integer
    points.  It stands for the library function in the examples. *)
Definition green_area (polygon : list point) : float :=
  match last polygon with
  | None => 0%float
  | Some l =>
      abs (0.5 * (foldl (λ st p,
                    ((st.1 + (float_of_int st.2.1 * float_of_int p.2
                              - float_of_int st.2.2 * float_of_int p.1))%float,
                     p)) (0%float, l) polygon).1)%float
  end.

(** The examples have no sublot candidate, so the functions that stand for
    [np.arccos] and [math.degrees] are never applied. *)
Definition as_is : float → float := λ x, x.

(** Three traced contours, of areas 20000, 1000 and 0.5, all of them top
    level. *)
Definition field : list point := [(0, 0); (200, 0); (200, 100); (0, 100)].
Definition yard : list point := [(300, 0); (340, 0); (340, 25); (300, 25)].
Definition speck : list point := [(5, 5); (6, 5); (6, 6)].
Definition traced : list (list point) := [field; yard; speck].
Definition traced_rows : list hierarchy_row :=
  [(1, -1, -1, -1); (2, 0, -1, -1); (-1, 1, -1, -1)].

Definition plano : upload := Upload "plano.png" [].
Definition plano_pdf : upload := Upload "Plano.PDF" [].

(** A decoder that finds no page and an image of 384 by 512 pixels whose
    preprocessing always succeeds and yields the three contours above. *)
Definition no_page : list Byte.byte → result (list unit) := λ _, Ok [].
Definition opened : list Byte.byte → result unit := λ _, Ok ().
Definition same : unit → result unit := λ _, Ok ().
Definition sheet_shape : unit → Z * Z := λ _, (384, 512).
Definition same1 : unit → float → result unit := λ _ _, Ok ().
Definition same2 : unit → float → float → result unit := λ _ _ _, Ok ().
Definition tracing :
    unit → result (list (list point) * option (list hierarchy_row)) :=
  λ _, Ok (traced, Some traced_rows).

Lemma classify_contours_lockstep_witness :
  (length traced ≤ length traced_rows)%nat
  ∧ classify_contours green_area as_is as_is traced traced_rows CFG
    = Ok ((filter external (zip traced traced_rows)).*1,
          (filter (internal green_area as_is as_is CFG)
             (zip traced traced_rows)).*1).
Proof.
  assert (length traced ≤ length traced_rows)%nat as Hlen by (simpl; lia).
  split; [exact Hlen|].
  exact (classify_contours_lockstep green_area as_is as_is traced
           traced_rows CFG Hlen).
Defined.

Lemma classify_contours_missing_row_witness :
  traced !! 1%nat = Some yard ∧ (3 ≤ length yard)%nat
  ∧ (length (take 1 traced_rows) ≤ 1)%nat
  ∧ classify_contours green_area as_is as_is traced (take 1 traced_rows) CFG
    = Raise IndexError.
Proof.
  assert (3 ≤ length yard)%nat as H3 by (simpl; lia).
  assert (length (take 1 traced_rows) ≤ 1)%nat as Hshort by (simpl; lia).
  split; [reflexivity|]. split; [exact H3|]. split; [exact Hshort|].
  exact (classify_contours_missing_row green_area as_is as_is traced
           (take 1 traced_rows) CFG 1 yard eq_refl H3 Hshort).
Defined.

Lemma filter_by_area_lockstep_witness :
  CFG !! "min_contour_area" = Some 1000%float
  ∧ (length traced ≤ length traced_rows)%nat
  ∧ let kept :=
      filter (λ cr, large green_area 1000 cr.1) (zip traced traced_rows) in
    filter_by_area green_area traced (Some traced_rows) CFG
    = Ok (kept.*1, kept.*2).
Proof.
  assert (length traced ≤ length traced_rows)%nat as Hlen by (simpl; lia).
  split; [reflexivity|]. split; [exact Hlen|].
  exact (filter_by_area_lockstep green_area traced traced_rows CFG 1000
           eq_refl Hlen).
Defined.

Lemma filter_by_area_strict_witness :
  CFG !! "min_contour_area" = Some 1000%float
  ∧ filter_by_area green_area traced (Some traced_rows) CFG
    = Ok ([field], [(1, -1, -1, -1)])
  ∧ Forall (λ c, c ∈ traced
                 ∧ (1000 <? green_area c)%float = true
                 ∧ green_area c ≠ 1000%float) [field].
Proof.
  assert (filter_by_area green_area traced (Some traced_rows) CFG
          = Ok ([field], [(1, -1, -1, -1)])) as H by (vm_compute; reflexivity).
  split; [reflexivity|]. split; [exact H|].
  exact (filter_by_area_strict green_area traced (Some traced_rows) CFG 1000
           _ eq_refl H).
Defined.

Lemma filter_by_area_missing_key_witness :
  (∅ : gmap string float) !! "min_contour_area" = None
  ∧ filter_by_area green_area traced (Some traced_rows) ∅
    = if bool_decide (traced = []) then Ok ([], []) else Raise KeyError.
Proof.
  split; [reflexivity|].
  exact (filter_by_area_missing_key green_area traced (Some traced_rows) ∅
           eq_refl).
Defined.

Lemma classify_after_filter_witness :
  CFG !! "min_contour_area" = Some 1000%float
  ∧ (length traced ≤ length traced_rows)%nat
  ∧ ∃ filtered_contours filtered_hierarchy classified,
      filter_by_area green_area traced (Some traced_rows) CFG
      = Ok (filtered_contours, filtered_hierarchy)
      ∧ length filtered_hierarchy = length filtered_contours
      ∧ classify_contours green_area as_is as_is filtered_contours
          filtered_hierarchy CFG = Ok classified.
Proof.
  assert (length traced ≤ length traced_rows)%nat as Hlen by (simpl; lia).
  split; [reflexivity|]. split; [exact Hlen|].
  exact (classify_after_filter green_area as_is as_is traced traced_rows CFG
           1000 eq_refl Hlen).
Defined.

Definition plano_result : extraction := Extraction [field] [] [field].

Lemma procesar_imagen_result_witness :
  procesar_imagen green_area as_is as_is unit unit no_page opened same
    sheet_shape same same1 same same2 same1 tracing plano CFG
  = Ok plano_result
  ∧ vectores plano_result
    = bordes_externos plano_result ++ sublotes plano_result
  ∧ Forall (λ c, 2 ≤ length c)%nat (vectores plano_result).
Proof.
  assert (procesar_imagen green_area as_is as_is unit unit no_page opened same
            sheet_shape same same1 same same2 same1 tracing plano CFG
          = Ok plano_result) as H by (vm_compute; reflexivity).
  split; [exact H|].
  exact (procesar_imagen_result green_area as_is as_is unit unit no_page
           opened same sheet_shape same same1 same same2 same1 tracing
           plano CFG plano_result H).
Defined.

Lemma decode_failure_witness :
  name plano_pdf ≠ ""
  ∧ decode unit unit no_page opened same plano_pdf = Raise IndexError
  ∧ procesar_imagen green_area as_is as_is unit unit no_page opened same
      sheet_shape same same1 same same2 same1 tracing plano_pdf CFG
    = Raise IndexError
  ∧ post green_area as_is as_is unit unit no_page opened same
      sheet_shape same same1 same same2 same1 tracing (Some plano_pdf)
    = Response 500
        (ErrorBody "Error al procesar la imagen" (Some IndexError))
  ∧ (endswith (lower (name plano_pdf)) ".pdf" = true →
     no_page (contenido plano_pdf) = Ok [] → IndexError = IndexError).
Proof.
  assert (name plano_pdf ≠ "") as Hname by done.
  split; [exact Hname|]. split; [reflexivity|].
  exact (decode_failure green_area as_is as_is unit unit no_page opened same
           sheet_shape same same1 same same2 same1 tracing plano_pdf CFG
           IndexError Hname eq_refl).
Defined.

Lemma is_valid_sublot_after_filter_witness :
  (default 500%float (CFG !! "min_sublot_area") <=? 1000)%float = true
  ∧ large green_area 1000 field
  ∧ is_valid_sublot green_area as_is as_is field CFG
    = bool_decide (3 ≤ length field ≤ 7)%nat
      && forallb (λ angle,
           negb (angle <? default 40%float (CFG !! "min_angle"))%float)
           (calculate_polygon_angles as_is as_is field).
Proof.
  assert (large green_area 1000 field) as Hlarge by (vm_compute; reflexivity).
  split; [reflexivity|]. split; [exact Hlarge|].
  exact (is_valid_sublot_after_filter green_area as_is as_is field CFG 1000
           eq_refl Hlarge).
Defined.

Lemma procesar_imagen_bounded_witness :
  procesar_imagen green_area as_is as_is unit unit no_page opened same
    sheet_shape same same1 same same2 same1 tracing plano CFG
  = Ok plano_result
  ∧ ∃ edges contours hierarchy,
      tracing edges = Ok (contours, hierarchy)
      ∧ (length (bordes_externos plano_result)
         + length (sublotes plano_result) ≤ length contours)%nat
      ∧ (length (vectores plano_result) ≤ length contours)%nat.
Proof.
  assert (procesar_imagen green_area as_is as_is unit unit no_page opened same
            sheet_shape same same1 same same2 same1 tracing plano CFG
          = Ok plano_result) as H by (vm_compute; reflexivity).
  split; [exact H|].
  exact (procesar_imagen_bounded green_area as_is as_is unit unit no_page
           opened same sheet_shape same same1 same same2 same1 tracing
           plano CFG plano_result H).
Defined.

End PipelineExamples.
